(** * Plasticity: cancellable resources, the recompute engine, translate
      factories, the GPU-picking id encoder and the snap presentation.

    A shallow embedding of the TypeScript sources, one module per source
    file, followed by the properties of each. *)

From Stdlib Require Import ZArith Lia List Bool.
From Stdlib Require Import Floats.SpecFloat.
From stdpp Require Import gmap strings list sorting.

Local Open Scope Z_scope.

(** ** JavaScript 32-bit integer operators

    The bitwise operators of JavaScript first convert their operands with
    ToInt32 (wrap-around into [-2^31, 2^31)), and [<<] wraps its result the
    same way.  Integers are modelled by [Z], the wrap-around is explicit. *)
Module JS.

Definition to_int32 (z : Z) : Z := (z + 2 ^ 31) mod 2 ^ 32 - 2 ^ 31.

(** [a << b] *)
Definition shl (a b : Z) : Z := to_int32 (Z.shiftl (to_int32 a) (b mod 32)).

(** [a >> b], sign-propagating *)
Definition sar (a b : Z) : Z := Z.shiftr (to_int32 a) (b mod 32).

(** [a & b] *)
Definition and (a b : Z) : Z := Z.land (to_int32 a) (to_int32 b).

(** [a | b] *)
Definition or (a b : Z) : Z := Z.lor (to_int32 a) (to_int32 b).

End JS.

(** ** src/components/viewport/gpu_picking/GeometryGPUPickingAdapter.ts *)
Module GeometryIdEncoder.

(** [type: 'edge' | 'face'] *)
Inductive GeometryType := edge | face.

(** [throw new Error("precondition failure")] *)
Inductive Error := PreconditionFailure.

Record Decoded := { parentId : Z; type : Z; index : Z }.

(** [encode(type, parentId, index)], lines 17-28. *)
Definition encode (t : GeometryType) (parentId index : Z) : Error + Z :=
  if parentId >? JS.shl 1 16 then inl PreconditionFailure
  else if index >? JS.shl 1 15 then inl PreconditionFailure
  else
    let parentId := JS.shl parentId 16 in
    let c := JS.shl (match t with edge => 0 | face => 1 end) 7 in
    let d := JS.or c (JS.and (JS.sar index 8) 0xef) in
    let e := JS.and (JS.sar index 0) 255 in
    let id := JS.or (JS.or parentId (JS.shl d 8)) e in
    inr id.

(** [decode(compact)], lines 30-37. *)
Definition decode (compact : Z) : Decoded :=
  let parentId := JS.sar compact 16 in
  let compact := JS.and compact 0xffff in
  let type := JS.sar compact 15 in
  let compact := JS.and compact 0x7fff in
  let index := compact in
  {| parentId := parentId; type := type; index := index |}.

(** [decode(encode(type, parentId, index))]; [None] when encode throws. *)
Definition roundtrip (t : GeometryType) (parentId index : Z) : option Decoded :=
  match encode t parentId index with
  | inl _ => None
  | inr id => Some (decode id)
  end.

(** The type field the decoder is meant to return. *)
Definition type_code (t : GeometryType) : Z :=
  match t with edge => 0 | face => 1 end.

End GeometryIdEncoder.

(** ** src/util/Cancellable.ts *)
Module Cancellable.

Section World.
(** Everything the callbacks can mutate: the heap outside the registrar's
    own [resources] array. *)
Context {W : Type}.

(** How a call of a [() => void] function ends: it returns, or it throws;
    either way it leaves a world behind. *)
Inductive Completion :=
| Normal (w : W)
| Throw (err : string) (w : W).

Definition Callback := W -> Completion.

(** [s1; s2]: the second statement runs only if the first returns. *)
Definition seq (c1 c2 : Callback) : Callback :=
  fun w => match c1 w with
           | Normal w1 => c2 w1
           | Throw err w1 => Throw err w1
           end.

(** [n] consecutive calls [c(); c(); ...]. *)
Fixpoint times (n : nat) (c : Callback) : Callback :=
  match n with
  | O => Normal
  | S n' => seq c (times n' c)
  end.

(** [Cancellable & Finishable], lines 12-18. *)
Record Resource := { cancel : Callback; finish : Callback }.

(** [CancellableDisposable], lines 30-37: both methods dispose. *)
Definition CancellableDisposable (dispose : Callback) : Resource :=
  {| cancel := dispose; finish := dispose |}.

(** [for (const resource of resources) { body(resource) }].  Besides the
    completion it returns the resources whose body was entered, in the
    order they were entered. *)
Fixpoint for_of (rs : list Resource) (body : Resource -> Callback) (w : W)
  : list Resource * Completion :=
  match rs with
  | [] => ([], Normal w)
  | r :: rs' =>
      match body r w with
      | Normal w1 => let '(tr, c) := for_of rs' body w1 in (r :: tr, c)
      | Throw err w1 => ([r], Throw err w1)
      end
  end.

(** [CancellableRegistor], lines 49-68.  The class has one field. *)
Record CancellableRegistor := { resources : list Resource }.

Definition Registor_new : CancellableRegistor := {| resources := [] |}.

Definition Registor_cancel (reg : CancellableRegistor) (w : W)
  : list Resource * Completion :=
  for_of (resources reg) cancel w.

Definition Registor_finish (reg : CancellableRegistor) (w : W)
  : list Resource * Completion :=
  for_of (resources reg) finish w.

(** [a(); b()] for two calls that report the resources they entered. *)
Definition then_traced (a b : W -> list Resource * Completion)
  : W -> list Resource * Completion :=
  fun w => match a w with
           | (tr1, Normal w1) => let '(tr2, c) := b w1 in (tr1 ++ tr2, c)
           | (tr1, Throw err w1) => (tr1, Throw err w1)
           end.

(** [resource(x) { this.resources.push(x); return x }] *)
Definition Registor_resource (x : Resource) (reg : CancellableRegistor)
  : Resource * CancellableRegistor :=
  (x, {| resources := resources reg ++ [x] |}).

(** [ResourceRegistration.resource(reg)], lines 24-27 *)
Definition ResourceRegistration_resource (this : Resource)
    (reg : CancellableRegistor) : Resource * CancellableRegistor :=
  (this, snd (Registor_resource this reg)).

(** The pair an [Executor<T>] returns, line 42. *)
Record Handlers := { h_cancel : Callback; h_finish : Callback }.

(** What [new Promise] hands to its executor. *)
Record PromiseOps (T : Type) :=
  { resolve : T -> Callback; reject : string -> Callback }.

Definition Executor (T : Type) := PromiseOps T -> W -> Handlers * W.

(** [CancellablePromise<T>], lines 70-97.  Its fields are [cancel],
    [finish] and [promise]; the type [State] of line 44 is declared but
    no field or variable has it. *)
Record CancellablePromise (T : Type) :=
  { cp_cancel : Callback; cp_finish : Callback; cp_promise : PromiseOps T }.
Arguments cp_cancel {T}.
Arguments cp_finish {T}.
Arguments cp_promise {T}.

(** The constructor, lines 84-92: the executor runs at once and its two
    callbacks are stored as the methods, unchanged. *)
Definition CancellablePromise_new {T} (new_Promise : W -> PromiseOps T * W)
    (executor : Executor T) (w : W) : CancellablePromise T * W :=
  let '(ops, w1) := new_Promise w in
  let '(h, w2) := executor ops w1 in
  ({| cp_cancel := h_cancel h; cp_finish := h_finish h; cp_promise := ops |},
   w2).

(** [static resolve()], lines 71-78. *)
Definition CancellablePromise_resolve (new_Promise : W -> PromiseOps unit * W)
    (w : W) : CancellablePromise unit * W :=
  CancellablePromise_new new_Promise
    (fun ops w0 =>
       let w1 := match resolve unit ops tt w0 with
                 | Normal w1 => w1 | Throw _ w1 => w1 end in
       ({| h_cancel := Normal; h_finish := Normal |}, w1)) w.

(** A [CancellablePromise] is a [ResourceRegistration]. *)
Definition as_resource {T} (p : CancellablePromise T) : Resource :=
  {| cancel := cp_cancel p; finish := cp_finish p |}.

(** The world a completion leaves behind. *)
Definition world_of (c : Completion) : W :=
  match c with Normal w => w | Throw _ w => w end.

Definition returned (c : Completion) : bool :=
  match c with Normal _ => true | Throw _ _ => false end.
End World.

Arguments Completion : clear implicits.
Arguments Callback : clear implicits.
Arguments Resource : clear implicits.
Arguments CancellableRegistor : clear implicits.
Arguments Handlers : clear implicits.
Arguments PromiseOps : clear implicits.
Arguments CancellablePromise : clear implicits.
Arguments cp_cancel {W T}.
Arguments cp_finish {W T}.
Arguments cp_promise {W T}.
Arguments resolve {W T}.
Arguments reject {W T}.

(** Concrete resources over a world that is a log of what ran. *)
Definition logging (msg : string) : Callback (list string) :=
  fun log => Normal (log ++ [msg]).

Definition throwing (err : string) : Callback (list string) :=
  fun log => Throw err log.

Definition logger (name : string) : Resource (list string) :=
  {| cancel := logging (name +:+ ".cancel");
     finish := logging (name +:+ ".finish") |}.

Definition thrower (name : string) : Resource (list string) :=
  {| cancel := throwing (name +:+ ".cancel failed");
     finish := throwing (name +:+ ".finish failed") |}.

(** A promise whose executor returns logging callbacks, the way a gizmo's
    executor returns callbacks that dispose and reject or resolve. *)
Definition logging_promise : CancellablePromise (list string) unit :=
  fst (CancellablePromise_new
         (fun w => ({| resolve := fun _ => Normal; reject := fun _ => Normal |}, w))
         (fun _ w => ({| h_cancel := logging "cancel";
                         h_finish := logging "finish" |}, w))
         []).

(** A registrar on which a throwing resource was registered before a
    logging one. *)
Definition thrower_then_logger : CancellableRegistor (list string) :=
  snd (Registor_resource (logger "b")
         (snd (Registor_resource (thrower "a") Registor_new))).

Definition two_loggers : CancellableRegistor (list string) :=
  snd (Registor_resource (logger "b")
         (snd (Registor_resource (logger "a") Registor_new))).

End Cancellable.

(** ** The recompute engine (GeometryFactory.update)

    [GeometryFactory] is imported by the test file part_000 and by part_002
    but its source is not among the files; the engine below is written from
    sections 3 and 4.1 of the specification, and replayed against the five
    tests of part_000 further down.

    Where the specification leaves a case open, the reading taken is the
    one under which all of its sentences and scenarios hold together:
    - a call that fails while a request is pending is followed by one call
      only, which reads the reverted parameters and serves the pending
      request too ("exactly one additional backend call has been issued
      beyond the failing one"; Scenario C counts 2 calls);
    - update() during the resynchronization call is coalesced into it
      (4.1 step 5: only Idle dispatches);
    - the promise returned in Idle is resolved when the engine is Idle
      again (step 1: "that call and any chained follow-up");
    - the snapshot is taken when a call succeeds, of the parameters as they
      are then (step 3); the success of a resynchronization call takes
      none (step 4 lists none). *)
Module RecomputeEngine.

(** Modelled from the spec: the [phase] of section 3; GeometryFactory's own
    state type is missing. *)
Inductive Phase := Idle | Running | RunningWithPending | Reverting.

(** Modelled from the spec: the two ways a backend outcome cannot be
    handled (section 7); GeometryFactory.update is missing. *)
Inductive Error :=
| NothingInFlight   (* a backend outcome arrived while no call was in flight *)
| ResyncFailed.     (* the resynchronization call itself failed: fatal *)

(** What the outside world does to an engine. *)
Inductive Event {V : Type} :=
| Update                          (* the command calls update() *)
| Resolve                         (* the in-flight backend call succeeds *)
| Reject                          (* the in-flight backend call fails *)
| SetParam (k : string) (v : V).  (* the command edits a parameter *)
Arguments Event : clear implicits.

(** The traffic with the backend, newest entry first.  Call numbers start
    at 1: call [n] is the one that made [callCount] equal to [n]. *)
Inductive BackendEvent {V : Type} :=
| Dispatched (n : nat) (args : gmap string V)
| Settled (n : nat) (ok : bool).
Arguments BackendEvent : clear implicits.

(** Modelled from the spec: the promises update() returns (4.1 steps 1-4),
    by number; GeometryFactory.update, which creates them, is missing.  A
    promise is in one of the three waiting lists until it moves to
    [resolved]. *)
Record Waiters := {
  issued : nat;            (* number of promises returned so far *)
  chained : list nat;      (* returned in Idle: wait for the whole chain *)
  current : list nat;      (* wait for the call now in flight *)
  follow : list nat;       (* wait for the one trailing call *)
  resolved : list nat
}.

(** Modelled from the spec: the RecomputeEngine data model of section 3
    ([parameters], [trackedKeys], [lastGood], [callCount], [phase]); the
    class GeometryFactory that holds it is missing.  [backend] and
    [waiters] record what the engine did, for the properties to speak of. *)
Record Engine {V : Type} := {
  parameters : gmap string V;
  trackedKeys : list string;
  lastGood : option (gmap string V);
  callCount : nat;
  phase : Phase;
  backend : list (BackendEvent V);
  waiters : Waiters
}.
Arguments Engine : clear implicits.

Section Engine.
Context {V : Type}.
Implicit Type e : Engine V.

(** Modelled from the spec: "snapshot parameters restricted to trackedKeys
    into lastGood" (4.1 step 3); GeometryFactory's state saving is missing. *)
Definition snapshot (ps : gmap string V) (keys : list string) : gmap string V :=
  foldr (fun k acc => match ps !! k with
                      | Some v => <[k := v]> acc
                      | None => acc
                      end) ∅ keys.

(** Modelled from the spec: "restore parameters for every name in
    trackedKeys to the values in lastGood" (4.1 step 4); GeometryFactory's
    state restoring is missing. *)
Definition restore (ps : gmap string V) (keys : list string)
    (good : gmap string V) : gmap string V :=
  foldr (fun k acc => match good !! k with
                      | Some v => <[k := v]> acc
                      | None => delete k acc
                      end) ps keys.

(** "no-op if no snapshot exists yet" *)
Definition reverted e : gmap string V :=
  match lastGood e with
  | Some good => restore (parameters e) (trackedKeys e) good
  | None => parameters e
  end.

Definition set_phase (ph : Phase) e : Engine V :=
  {| parameters := parameters e; trackedKeys := trackedKeys e;
     lastGood := lastGood e; callCount := callCount e; phase := ph;
     backend := backend e; waiters := waiters e |}.

Definition set_waiters (ws : Waiters) e : Engine V :=
  {| parameters := parameters e; trackedKeys := trackedKeys e;
     lastGood := lastGood e; callCount := callCount e; phase := phase e;
     backend := backend e; waiters := ws |}.

Definition set_parameters (ps : gmap string V) e : Engine V :=
  {| parameters := ps; trackedKeys := trackedKeys e;
     lastGood := lastGood e; callCount := callCount e; phase := phase e;
     backend := backend e; waiters := waiters e |}.

Definition set_lastGood (good : option (gmap string V)) e : Engine V :=
  {| parameters := parameters e; trackedKeys := trackedKeys e;
     lastGood := good; callCount := callCount e; phase := phase e;
     backend := backend e; waiters := waiters e |}.

(** Modelled from the spec: "issue one backend call through doUpdate,
    increment callCount"; the call reads the parameters as they are at
    dispatch time (section 5).  GeometryFactory.update is missing. *)
Definition dispatch e : Engine V :=
  {| parameters := parameters e; trackedKeys := trackedKeys e;
     lastGood := lastGood e; callCount := S (callCount e); phase := phase e;
     backend := Dispatched (S (callCount e)) (parameters e) :: backend e;
     waiters := waiters e |}.

(** The in-flight call, which is call number [callCount], settles. *)
Definition settled (ok : bool) e : Engine V :=
  {| parameters := parameters e; trackedKeys := trackedKeys e;
     lastGood := lastGood e; callCount := callCount e; phase := phase e;
     backend := Settled (callCount e) ok :: backend e;
     waiters := waiters e |}.

Definition new_promise (ws : Waiters) : nat := issued ws.

Definition wait_chained (ws : Waiters) : Waiters :=
  {| issued := S (issued ws); chained := issued ws :: chained ws;
     current := current ws; follow := follow ws; resolved := resolved ws |}.

Definition wait_current (ws : Waiters) : Waiters :=
  {| issued := S (issued ws); chained := chained ws;
     current := issued ws :: current ws; follow := follow ws;
     resolved := resolved ws |}.

Definition wait_follow (ws : Waiters) : Waiters :=
  {| issued := S (issued ws); chained := chained ws;
     current := current ws; follow := issued ws :: follow ws;
     resolved := resolved ws |}.

(** Modelled from the spec: "transition to Idle and resolve the caller's
    promise" (4.1 step 3); GeometryFactory.update is missing.  The engine is
    idle again: everybody waiting is resolved. *)
Definition resolve_all (ws : Waiters) : Waiters :=
  {| issued := issued ws; chained := []; current := []; follow := [];
     resolved := follow ws ++ current ws ++ chained ws ++ resolved ws |}.

(** Modelled from the spec: "the returned promise resolves only after the
    in-flight call completes and exactly one follow-up backend call has
    also completed" (4.1 step 2); GeometryFactory.update is missing.  The
    trailing call goes out: those who waited for the call that has just
    succeeded are resolved, those who waited for the follow-up now wait for
    the call in flight. *)
Definition advance (ws : Waiters) : Waiters :=
  {| issued := issued ws; chained := chained ws; current := follow ws;
     follow := []; resolved := current ws ++ resolved ws |}.

(** Modelled from the spec: "then resolve the original update() caller's
    promise successfully" (4.1 step 4); GeometryFactory.update is missing.
    The resynchronization call takes every waiter with it. *)
Definition absorb (ws : Waiters) : Waiters :=
  {| issued := issued ws; chained := chained ws;
     current := follow ws ++ current ws; follow := [];
     resolved := resolved ws |}.

(** Modelled from the spec: update(), section 4.1 steps 1 and 2, and step 5
    for the Reverting phase ("Idle is the only state in which a brand-new
    update() call dispatches work rather than coalescing");
    GeometryFactory.update is missing.  Returns the promise and the engine. *)
Definition update e : nat * Engine V :=
  let p := new_promise (waiters e) in
  match phase e with
  | Idle =>
      (p, dispatch (set_phase Running (set_waiters (wait_chained (waiters e)) e)))
  | Running =>
      (p, set_phase RunningWithPending (set_waiters (wait_follow (waiters e)) e))
  | RunningWithPending =>
      (p, set_waiters (wait_follow (waiters e)) e)
  | Reverting =>
      (p, set_waiters (wait_current (waiters e)) e)
  end.

(** Modelled from the spec: section 4.1 step 3 (the in-flight call
    succeeds) and the end of step 4 (the resynchronization call succeeds,
    "then resolve the original update() caller's promise");
    GeometryFactory.update is missing. *)
Definition on_resolve e : Error + Engine V :=
  match phase e with
  | Idle => inl NothingInFlight
  | Running =>
      let e1 := set_lastGood (Some (snapshot (parameters e) (trackedKeys e)))
                             (settled true e) in
      inr (set_phase Idle (set_waiters (resolve_all (waiters e)) e1))
  | RunningWithPending =>
      let e1 := set_lastGood (Some (snapshot (parameters e) (trackedKeys e)))
                             (settled true e) in
      inr (dispatch (set_phase Running (set_waiters (advance (waiters e)) e1)))
  | Reverting =>
      inr (set_phase Idle (set_waiters (resolve_all (waiters e)) (settled true e)))
  end.

(** Modelled from the spec: section 4.1 step 4 (a backend call fails: restore
    the tracked parameters, issue one silent call with the reverted
    parameters) and section 7 (a failing resynchronization call is fatal);
    GeometryFactory.update is missing.  The one additional call serves the
    pending request as well: it is the single trailing call. *)
Definition on_reject e : Error + Engine V :=
  match phase e with
  | Idle => inl NothingInFlight
  | Running | RunningWithPending =>
      let e1 := set_parameters (reverted e) (settled false e) in
      inr (dispatch (set_phase Reverting (set_waiters (absorb (waiters e)) e1)))
  | Reverting => inl ResyncFailed
  end.

(** "Mutated directly by the owning command between calls to update()" *)
Definition set_param (k : string) (v : V) e : Engine V :=
  set_parameters (<[k := v]> (parameters e)) e.

Definition step e (ev : Event V) : Error + Engine V :=
  match ev with
  | Update => inr (snd (update e))
  | Resolve => on_resolve e
  | Reject => on_reject e
  | SetParam k v => inr (set_param k v e)
  end.

Fixpoint run (evs : list (Event V)) e : Error + Engine V :=
  match evs with
  | [] => inr e
  | ev :: evs' =>
      match step e ev with
      | inl err => inl err
      | inr e1 => run evs' e1
      end
  end.

(** The event of the in-flight backend call completing, by its outcome. *)
Definition completes (ok : bool) : Event V := if ok then Resolve else Reject.

(** Modelled from the spec: a new engine (section 3: Idle is initial,
    lastGood is absent before the first success); GeometryFactory's
    constructor is missing. *)
Definition init (keys : list string) (ps : gmap string V) : Engine V :=
  {| parameters := ps; trackedKeys := keys; lastGood := None;
     callCount := 0; phase := Idle; backend := [];
     waiters := {| issued := 0; chained := []; current := []; follow := [];
                   resolved := [] |} |}.

(** Backend calls dispatched and not yet settled. *)
Fixpoint outstanding (log : list (BackendEvent V)) : Z :=
  match log with
  | [] => 0
  | Dispatched _ _ :: rest => outstanding rest + 1
  | Settled _ _ :: rest => outstanding rest - 1
  end.

(** The log strictly alternates: every call is settled before the next is
    dispatched, and a settlement belongs to the call dispatched just before. *)
Fixpoint serial (log : list (BackendEvent V)) : bool :=
  match log with
  | [] => true
  | Dispatched n _ :: rest =>
      match rest with
      | [] => true
      | Settled m _ :: _ => Nat.eqb n (S m) && serial rest
      | Dispatched _ _ :: _ => false
      end
  | Settled n _ :: rest =>
      match rest with
      | Dispatched m _ :: _ => Nat.eqb n m && serial rest
      | _ => false
      end
  end.

(** The parameters each backend call read, oldest call first. *)
Fixpoint calls (log : list (BackendEvent V)) : list (gmap string V) :=
  match log with
  | [] => []
  | Dispatched _ args :: rest => calls rest ++ [args]
  | Settled _ _ :: rest => calls rest
  end.

Definition is_resolved (p : nat) e : bool :=
  bool_decide (p ∈ resolved (waiters e)).

(** The phase tells whether a call is in flight, and which. *)
Definition in_step_with_backend e : Prop :=
  serial (backend e) = true /\
  match phase e with
  | Idle =>
      outstanding (backend e) = 0 /\
      match backend e with
      | [] => callCount e = 0%nat
      | Settled n _ :: _ => n = callCount e
      | Dispatched _ _ :: _ => False
      end
  | _ =>
      outstanding (backend e) = 1 /\
      match backend e with
      | Dispatched n _ :: _ => n = callCount e
      | _ => False
      end
  end.

(** Promise numbers are handed out in order: every promise the engine knows
    of was returned by an earlier update(). *)
Definition promises_fresh e : Prop :=
  Forall (fun p => (p < issued (waiters e))%nat)
         (follow (waiters e) ++ current (waiters e) ++ chained (waiters e)
          ++ resolved (waiters e)).

(** The promises not yet resolved. *)
Definition waiting e : list nat :=
  follow (waiters e) ++ current (waiters e) ++ chained (waiters e).

Definition edit (kv : string * V) : Event V := SetParam (fst kv) (snd kv).

(** The parameters after the command has made the edits, in order. *)
Definition apply_edits (edits : list (string * V)) (ps : gmap string V)
  : gmap string V :=
  fold_left (fun acc kv => <[fst kv := snd kv]> acc) edits ps.

(** The number of update() calls among the events. *)
Fixpoint count_updates (evs : list (Event V)) : nat :=
  match evs with
  | [] => 0
  | Update :: evs' => S (count_updates evs')
  | _ :: evs' => count_updates evs'
  end.

(** One round of a serial use: the command edits some parameters, calls
    update(), and the backend call succeeds before anything else happens. *)
Definition serial_round (edits : list (string * V)) : list (Event V) :=
  map edit edits ++ [Update; Resolve].

(** Rounds of update() each awaited before the next, every backend call
    succeeding. *)
Definition serial_updates (rounds : list (list (string * V))) : list (Event V) :=
  concat (map serial_round rounds).

End Engine.

End RecomputeEngine.

(** ** JavaScript numbers

    A number is an IEEE 754 binary64 value; [spec_float] with precision 53
    and maximal exponent 1024 is the Standard Library's executable model of
    these. *)
Module Number.

Definition number := spec_float.

Definition prec : Z := 53.
Definition emax : Z := 1024.

(** [a + b] *)
Definition add (a b : number) : number := SFadd prec emax a b.

(** [Math.abs(a)] *)
Definition abs (a : number) : number := SFabs a.

(** [a < b]: false when either is NaN *)
Definition lt (a b : number) : bool := SFltb a b.

(** [a === b] on numbers: false when either is NaN, true for [+0 === -0] *)
Definition strict_eq (a b : number) : bool := SFeqb a b.

Definition zero : number := S754_zero false.
Definition neg_zero : number := S754_zero true.
Definition one : number := S754_finite false 4503599627370496 (-52).
Definition NaN : number := S754_nan.

(** The literal [10e-6]: the binary64 value nearest to 1/100000. *)
Definition lit_10e_6 : number := S754_finite false 5902958103587057 (-69).

(** The literal [1e-6], used in examples. *)
Definition lit_1e_6 : number := S754_finite false 4722366482869645 (-72).

End Number.

(** ** part_002: TranslateFactory, MoveFactory, RotateFactory, ScaleFactory *)
Module Translate.
Import Number.

(** [THREE.Vector3] *)
Record Vector3 := { x : number; y : number; z : number }.

(** [THREE.Quaternion] *)
Record Quaternion := { qx : number; qy : number; qz : number; qw : number }.

(** three.js: [Math.abs(this.x) + Math.abs(this.y) + Math.abs(this.z)] *)
Definition manhattanLength (v : Vector3) : number :=
  add (add (abs (x v)) (abs (y v))) (abs (z v)).

(** three.js: [(v.x === this.x) && (v.y === this.y) && (v.z === this.z)] *)
Definition equals (this v : Vector3) : bool :=
  strict_eq (x v) (x this) && strict_eq (y v) (y this)
  && strict_eq (z v) (z this).

(** [const identity = new THREE.Vector3(1, 1, 1)], line 159 *)
Definition identity : Vector3 := {| x := one; y := one; z := one |}.

Inductive Error :=
| NoOpError
| InvalidPrecondition.   (* [new Error("invalid precondition")], line 62 *)

(** What was asked of [c3d.TransformValues] to build the transform. *)
Inductive TransformValues :=
| TV_Move (vec : Vector3)
| TV_Rotate (point axis : Vector3) (angle : number)
| TV_Scale (sx sy sz : number) (pivot : Vector3).

(** [MoveFactory], lines 86-100 *)
Module MoveFactory.
Record t := { move : Vector3; pivot : Vector3 }.

(** [get transform()], lines 90-99 *)
Definition transform (this : t) : Error + TransformValues :=
  if lt (manhattanLength (move this)) lit_10e_6 then inl NoOpError
  else inr (TV_Move (move this)).
End MoveFactory.

(** [RotateFactory], lines 108-152 *)
Module RotateFactory.
Record t := { pivot : Vector3; axis : Vector3; angle : number }.

(** [get transform()], lines 139-151 *)
Definition transform (this : t) : Error + TransformValues :=
  if strict_eq (angle this) zero then inl NoOpError
  else inr (TV_Rotate (pivot this) (axis this) (angle this)).
End RotateFactory.

(** [ScaleFactory], lines 160-169 *)
Module ScaleFactory.
Record t := { scale : Vector3; pivot : Vector3 }.

(** [get transform()], lines 164-169 *)
Definition transform (this : t) : Error + TransformValues :=
  if equals (scale this) identity then inl NoOpError
  else inr (TV_Scale (x (scale this)) (y (scale this)) (z (scale this))
                     (pivot this)).
End ScaleFactory.

(** The three concrete subclasses of the abstract [TranslateFactory]. *)
Inductive Factory :=
| Move (f : MoveFactory.t)
| Rotate (f : RotateFactory.t)
| Scale (f : ScaleFactory.t).

(** [protected abstract get transform()], line 76, by dynamic dispatch *)
Definition transform (this : Factory) : Error + TransformValues :=
  match this with
  | Move f => MoveFactory.transform f
  | Rotate f => RotateFactory.transform f
  | Scale f => ScaleFactory.transform f
  end.

Definition is_NoOp {A} (r : Error + A) : bool :=
  match r with inl NoOpError => true | _ => false end.

(** The backend models [db.lookup] returns, told apart by [instanceof]. *)
Inductive Model :=
| Solid (id : nat)
| SpaceInstance (id : nat)
| OtherItem (id : nat).

(** The geometry computations [calculate] asks of the backend. *)
Inductive BackendCall :=
| TransformedSolid (solid : nat) (params : TransformValues)
| DuplicateAndTransform (instance : nat) (params : TransformValues).

(** The loop of [calculate], lines 55-64: the calls made, and the outcome. *)
Fixpoint calculate_loop (tv : TransformValues) (models : list Model)
  : list BackendCall * (Error + list BackendCall) :=
  match models with
  | [] => ([], inr [])
  | Solid id :: rest =>
      let '(made, r) := calculate_loop tv rest in
      (TransformedSolid id tv :: made,
       match r with
       | inl e => inl e
       | inr res => inr (TransformedSolid id tv :: res)
       end)
  | SpaceInstance id :: rest =>
      let '(made, r) := calculate_loop tv rest in
      (DuplicateAndTransform id tv :: made,
       match r with
       | inl e => inl e
       | inr res => inr (DuplicateAndTransform id tv :: res)
       end)
  | OtherItem _ :: _ => ([], inl InvalidPrecondition)
  end.

(** [calculate()], lines 49-66.  [const { models, transform, names } = this]
    runs the [transform] getter before anything else. *)
Definition calculate (this : Factory) (models : list Model)
  : list BackendCall * (Error + list BackendCall) :=
  match transform this with
  | inl e => ([], inl e)
  | inr tv => calculate_loop tv models
  end.

(** How a call ends for its caller: it returns a value or throws. *)
Inductive Call (A : Type) :=
| Returned (a : A)
| Thrown (e : Error).
Arguments Returned {A}.
Arguments Thrown {A}.

(** A promise, once settled. *)
Inductive Promise (A : Type) :=
| Fulfilled (a : A)
| Rejected (e : Error).
Arguments Fulfilled {A}.
Arguments Rejected {A}.




(** [THREE.Matrix4]: its sixteen [elements]. *)
Definition Matrix4 := list number.

Definition identity4 : Matrix4 :=
  [one; zero; zero; zero;  zero; one; zero; zero;
   zero; zero; one; zero;  zero; zero; zero; one].

(** [visual.Item]: which item it is, and the fields of [THREE.Object3D]
    the factories write: position, quaternion and scale directly, matrix
    and matrixWorld through [updateMatrixWorld]. *)
Record Item := {
  underlying : nat;
  position : Vector3;
  quaternion : Quaternion;
  scale : Vector3;
  matrix : Matrix4;
  matrixWorld : Matrix4
}.

Definition zero3 : Vector3 := {| x := zero; y := zero; z := zero |}.
Definition one3 : Vector3 := {| x := one; y := one; z := one |}.
Definition identity_quaternion : Quaternion :=
  {| qx := zero; qy := zero; qz := zero; qw := one |}.

(** [new THREE.Object3D()] starts at the origin, unrotated, unscaled, with
    identity matrices. *)
Definition new_Item (id : nat) : Item :=
  {| underlying := id; position := zero3; quaternion := identity_quaternion;
     scale := one3; matrix := identity4; matrixWorld := identity4 |}.

(** Position, quaternion and scale of an item. *)
Definition visual_transform (item : Item) : Vector3 * Quaternion * Vector3 :=
  (position item, quaternion item, scale item).

Definition at_baseline (item : Item) : Prop :=
  position item = zero3 /\ quaternion item = identity_quaternion
  /\ scale item = one3.

(** [doCancel()], lines 68-74: three fields are set; nothing is recomputed. *)
Definition doCancel (items : list Item) : list Item :=
  map (fun item =>
         {| underlying := underlying item;
            position := zero3;                   (* position.set(0, 0, 0) *)
            quaternion := identity_quaternion;   (* quaternion.set(0, 0, 0, 1) *)
            scale := one3;                       (* scale.set(1, 1, 1) *)
            matrix := matrix item;
            matrixWorld := matrixWorld item |})
      items.

(** What the first callback of a [doUpdate] writes into every item.  The
    numbers come out of c3d's [GetMatrix] and three.js's [decompose],
    [applyAxisAngle] and [setFromAxisAngle], the matrices out of three.js's
    [updateMatrixWorld]; here they are given. *)
Inductive VisualWrite :=
| Decomposed (p : Vector3) (q : Quaternion) (s : Vector3)
             (updateMatrixWorld : Item -> Matrix4 * Matrix4)
| Rotated (p : Vector3) (q : Quaternion).

Definition write (w : VisualWrite) (item : Item) : Item :=
  match w with
  | Decomposed p q s updateMatrixWorld =>
      (* matrix.decompose(item.position, item.quaternion, item.scale) *)
      let item1 := {| underlying := underlying item; position := p;
                      quaternion := q; scale := s; matrix := matrix item;
                      matrixWorld := matrixWorld item |} in
      (* item.updateMatrixWorld() *)
      {| underlying := underlying item; position := p; quaternion := q;
         scale := s; matrix := fst (updateMatrixWorld item1);
         matrixWorld := snd (updateMatrixWorld item1) |}
  | Rotated p q =>
      (* lines 121-126: position and quaternion are set; scale is not, and
         updateMatrixWorld is not called *)
      {| underlying := underlying item; position := p; quaternion := q;
         scale := scale item; matrix := matrix item;
         matrixWorld := matrixWorld item |}
  end.

(** What an asynchronous step does: the promise it settles, with the
    temporary objects, each standing for the item it wraps
    ([{ underlying: item, show() {}, cancel() {} }]), and the items as it
    leaves them. *)
Definition AsyncStep := list Item -> Promise (list nat) * list Item.

Section Database.
(** [GeometryDatabase.optimization] and [GeometryFactory.doUpdate] are
    imported, their source is not among the files: [db.optimization] is
    given two callbacks, and the fallback of [TranslateFactory.doUpdate] is
    its superclass's method.  Nothing is assumed about either. *)
Context (db_optimization : AsyncStep -> AsyncStep -> AsyncStep)
        (GeometryFactory_doUpdate : Factory -> AsyncStep).
(** three.js and c3d: the decomposition of the matrix of a transform, the
    matrices [updateMatrixWorld] computes for an item, the origin turned
    about a point ([set(0,0,0)], [sub(point)], [applyAxisAngle(axis, angle)],
    [add(point)]), and [setFromAxisAngle]. *)
Context (decompose : TransformValues -> Vector3 * Quaternion * Vector3)
        (updateMatrixWorld : Item -> Matrix4 * Matrix4)
        (rotate_origin : Vector3 -> Vector3 -> number -> Vector3)
        (setFromAxisAngle : Vector3 -> number -> Quaternion).

(** The first callback of [TranslateFactory.doUpdate], lines 33-46. *)
Definition TranslateFactory_fast (tv : TransformValues) : AsyncStep :=
  fun items =>
    let '(p, q, s) := decompose tv in
    let items' := map (write (Decomposed p q s updateMatrixWorld)) items in
    (Fulfilled (map underlying items'), items').


(** The first callback of [RotateFactory.doUpdate], lines 117-136. *)
Definition RotateFactory_fast (this : RotateFactory.t) : AsyncStep :=
  fun items =>
    if strict_eq (RotateFactory.angle this) zero then (Fulfilled [], items)
    else
      let items' :=
        map (write (Rotated
                      (rotate_origin (RotateFactory.pivot this)
                                     (RotateFactory.axis this)
                                     (RotateFactory.angle this))
                      (setFromAxisAngle (RotateFactory.axis this)
                                        (RotateFactory.angle this))))
            items in
      (Fulfilled (map underlying items'), items').



End Database.


End Translate.

(** ** part_001: SnapPresentation *)
Module SnapPresentation.

(** JavaScript's default [sort] order on strings is by code units, from the
    first that differs: [String.le], the reading of [String.leb] as a
    relation. *)

(** [[...new Set(names)]]: first occurrences, in insertion order. *)
Definition new_Set (names : list string) : list string :=
  fold_left (fun acc n => if decide (n ∈ acc) then acc else acc ++ [n])
            names [].

(** [Array.prototype.sort()] with the default comparison. *)
Definition sort (names : list string) : list string :=
  merge_sort String.le names.

Section Presentation.
(** The three.js and editor types the constructor only passes around. *)
Context {Object3D Vector3 Quaternion ConstructionPlane PointSnap : Type}.

(** The two fields of a [Snap] the constructor reads, line 81. *)
Record Snap := { helper : option Object3D; name : option string }.

(** [SnapResult] *)
Record SnapResult := {
  snap : Snap;
  position : Vector3;
  orientation : Quaternion;
  cursorPosition : Vector3;
  cursorOrientation : Quaternion
}.

(** [SnapInfo], lines 15-24: the fields of a [SnapResult] and three more. *)
Record SnapInfo := {
  spread : SnapResult;
  constructionPlane : ConstructionPlane;
  cameraPosition : Vector3;
  cameraOrientation : Quaternion
}.

(** [THREE.Camera] *)
Record Camera := { camera_position : Vector3; camera_quaternion : Quaternion }.

(** [SnapIndicator] *)
Record SnapIndicator := {
  nearbyIndicatorFor : PointSnap -> Object3D;
  snapIndicatorFor : SnapResult -> Object3D
}.

(** The four fields of the class, lines 54-57. *)
Record SnapPresentation := {
  helpers : list Object3D;
  info : option SnapInfo;
  names : list string;
  nearby : list Object3D
}.

(** The loop of lines 80-84, started from the helpers and names so far. *)
Fixpoint collect (intersections : list SnapResult)
    (hs : list Object3D) (ns : list string) : list Object3D * list string :=
  match intersections with
  | [] => (hs, ns)
  | intersection :: rest =>
      let hs1 := match helper (snap intersection) with
                 | Some h => hs ++ [h]
                 | None => hs
                 end in
      let ns1 := match name (snap intersection) with
                 | Some n => ns ++ [n]
                 | None => ns
                 end in
      collect rest hs1 ns1
  end.

(** The constructor, lines 59-89. *)
Definition new_SnapPresentation (nearby_snaps : list PointSnap)
    (intersections : list SnapResult) (plane : ConstructionPlane)
    (camera : Camera) (presenter : SnapIndicator)
    (activatedHelpers : list Object3D) : SnapPresentation :=
  let nearby := map (nearbyIndicatorFor presenter) nearby_snaps in
  match intersections with
  | [] => {| helpers := []; info := None; names := []; nearby := nearby |}
  | first :: _ =>
      let info := {| spread := first; constructionPlane := plane;
                     cameraOrientation := camera_quaternion camera;
                     cameraPosition := camera_position camera |} in
      let indicator := snapIndicatorFor presenter first in
      let '(helpers, names) :=
        collect intersections (activatedHelpers ++ [indicator]) [] in
      {| helpers := helpers; info := Some info;
         names := sort (new_Set names); nearby := nearby |}
  end.

(** The defined snap names of the intersections, in order. *)
Definition defined_names (intersections : list SnapResult) : list string :=
  omap (fun i => name (snap i)) intersections.

End Presentation.

End SnapPresentation.

(** ** The fixture of part_000 *)
Module FakeFactory.
Import RecomputeEngine.

(** [FakeFactory]: one tracked key, [revertOnError = 0]. *)
Definition factory : Engine Z :=
  init ["revertOnError"%string] {[ "revertOnError"%string := 0 ]}.

Definition updateCount (r : Error + Engine Z) : option nat :=
  match r with inr e => Some (callCount e) | inl _ => None end.

Definition revertOnError (r : Error + Engine Z) : option Z :=
  match r with inr e => parameters e !! "revertOnError"%string | inl _ => None end.

Definition promise_resolved (p : nat) (r : Error + Engine Z) : option bool :=
  match r with inr e => Some (is_resolved p e) | inl _ => None end.

(** The calls of the test "in case of error, it reverts to last successful
    parameter", lines 94-110. *)
Definition revert_test : list (Event Z) :=
  [SetParam "revertOnError" 1; Update; Resolve;
   SetParam "revertOnError" 2; Update; Reject; Resolve].

(** The engine the events leave behind (the factory itself if the run is
    fatal). *)
Definition after (evs : list (Event Z)) : Engine Z :=
  match run evs factory with inr e => e | inl _ => factory end.

End FakeFactory.

(** ** GeometryGPUPickingAdapter.ts: the debug encoder and compact2full *)
Module DebugGeometryIdEncoder.

(** [encode], lines 45-47: [super.encode(...) | 0xf0000000] *)
Definition encode (t : GeometryIdEncoder.GeometryType) (parentId index : Z)
  : GeometryIdEncoder.Error + Z :=
  match GeometryIdEncoder.encode t parentId index with
  | inl e => inl e
  | inr id => inr (JS.or id 0xf0000000)
  end.

(** [decode], lines 49-51: [super.decode(compact & 0x0fffffff)] *)
Definition decode (compact : Z) : GeometryIdEncoder.Decoded :=
  GeometryIdEncoder.decode (JS.and compact 0x0fffffff).

Definition roundtrip (t : GeometryIdEncoder.GeometryType) (parentId index : Z)
  : option GeometryIdEncoder.Decoded :=
  match encode t parentId index with
  | inl _ => None
  | inr id => Some (decode id)
  end.

End DebugGeometryIdEncoder.

Module GeometryGPUPickingAdapter.

(** The two encoder classes. *)
Inductive Encoder := Plain | Debug.

(** [static encoder], line 58:
    [process.env.NODE_ENV == 'development' ? new DebugGeometryIdEncoder()
                                           : new GeometryIdEncoder()].
    [NODE_ENV] is a string, or undefined. *)
Definition encoder (NODE_ENV : option string) : Encoder :=
  match NODE_ENV with
  | Some env => if String.eqb env "development" then Debug else Plain
  | None => Plain
  end.

(** [encoder.encode] and [encoder.decode], by dynamic dispatch. *)
Definition Encoder_encode (e : Encoder) (t : GeometryIdEncoder.GeometryType)
    (parentId index : Z) : GeometryIdEncoder.Error + Z :=
  match e with
  | Plain => GeometryIdEncoder.encode t parentId index
  | Debug => DebugGeometryIdEncoder.encode t parentId index
  end.

Definition Encoder_decode (e : Encoder) (compact : Z)
  : GeometryIdEncoder.Decoded :=
  match e with
  | Plain => GeometryIdEncoder.decode compact
  | Debug => DebugGeometryIdEncoder.decode compact
  end.

Section Names.
(** [visual.CurveEdge.simpleName] and [visual.Face.simpleName], of the
    visual model. *)
Context (CurveEdge_simpleName Face_simpleName : Z -> Z -> string).

(** [compact2full], lines 106-109, in a build with the given [NODE_ENV]. *)
Definition compact2full (NODE_ENV : option string) (compact : Z) : string :=
  let d := Encoder_decode (encoder NODE_ENV) compact in
  if GeometryIdEncoder.type d =? 0
  then CurveEdge_simpleName (GeometryIdEncoder.parentId d)
                            (GeometryIdEncoder.index d)
  else Face_simpleName (GeometryIdEncoder.parentId d)
                       (GeometryIdEncoder.index d).
End Names.

(** The index an encoded id carries: bit 12 of the index is masked away
    by [0xef]. *)
Definition carried_index (index : Z) : Z :=
  index - 4096 * ((index / 4096) mod 2).

(** The parent id an id of the plain encoder gives back: the signed
    reading of 16 bits. *)
Definition signed16 (parentId : Z) : Z :=
  if parentId <? 2 ^ 15 then parentId else parentId - 2 ^ 16.

(** The parent id an encoded id gives back to the encoder that made it:
    the debug encoder gives its four high bits to alpha. *)
Definition carried_parentId (e : Encoder) (parentId : Z) : Z :=
  match e with
  | Plain => signed16 parentId
  | Debug => parentId mod 2 ^ 12
  end.

End GeometryGPUPickingAdapter.

(** ** Cancellable.ts: registering several resources *)
Module CancellableUse.
Import Cancellable.

(** [reg.resource(x1); ...; reg.resource(xn)] *)
Definition register_all {W} (xs : list (Resource W))
    (reg : CancellableRegistor W) : CancellableRegistor W :=
  fold_left (fun r x => snd (Registor_resource x r)) xs reg.

(** Callbacks that return, whatever the world. *)
Definition never_throws {W} (c : Callback W) : Prop :=
  forall w, returned (c w) = true.

(** The world after running the callbacks one after the other, as long as
    they return. *)
Fixpoint run_all {W} (cs : list (Callback W)) (w : W) : Completion W :=
  match cs with
  | [] => Normal w
  | c :: cs' => seq c (run_all cs') w
  end.

End CancellableUse.

(** ** part_002: which models [calculate] can transform *)
Module TranslateUse.
Import Translate.

(** [model instanceof c3d.Solid || model instanceof c3d.SpaceInstance] *)
Definition supported (m : Model) : bool :=
  match m with Solid _ | SpaceInstance _ => true | OtherItem _ => false end.

(** The backend call [calculate] makes for a supported model. *)
Definition call_for (tv : TransformValues) (m : Model) : option BackendCall :=
  match m with
  | Solid id => Some (TransformedSolid id tv)
  | SpaceInstance id => Some (DuplicateAndTransform id tv)
  | OtherItem _ => None
  end.

(** The models in front of the first unsupported one. *)
Fixpoint supported_prefix (models : list Model) : list Model :=
  match models with
  | [] => []
  | m :: rest => if supported m then m :: supported_prefix rest else []
  end.

(** NaN, Infinity and -Infinity. *)
Definition not_finite (a : Number.number) : Prop :=
  match a with
  | S754_nan | S754_infinity _ => True
  | _ => False
  end.

(** NaN and Infinity: what a sum of absolute values is when it is not
    finite. *)
Definition nan_or_infinity (a : Number.number) : Prop :=
  a = S754_nan \/ a = S754_infinity false.

End TranslateUse.

(** ** part_001: the two factories of a presentation, and SnapPresenter *)
Module SnapPresenter.
Import SnapPresentation.

Section Presenter.
Context {Object3D Vector3 Quaternion ConstructionPlane PointSnap : Type}.

(** [makeForGizmo], lines 43-52, from what the picker returned: no helper
    is activated. *)
Definition makeForGizmo (nearby_snaps : list PointSnap)
    (intersections : list (@SnapResult Object3D Vector3 Quaternion))
    (constructionPlane : ConstructionPlane)
    (camera : @Camera Vector3 Quaternion)
    (indicators : @SnapIndicator Object3D Vector3 Quaternion PointSnap)
  : @SnapPresentation Object3D Vector3 Quaternion ConstructionPlane :=
  new_SnapPresentation nearby_snaps intersections constructionPlane camera
                       indicators [].

(** [makeForPointPicker], lines 30-41, from what the picker returned:
    the helpers of the activated snaps that have one, line 37. *)
Definition makeForPointPicker (nearby_snaps : list PointSnap)
    (intersections : list (@SnapResult Object3D Vector3 Quaternion))
    (actualConstructionPlaneGiven : ConstructionPlane)
    (camera : @Camera Vector3 Quaternion)
    (indicator : @SnapIndicator Object3D Vector3 Quaternion PointSnap)
    (activated : list (@Snap Object3D))
  : @SnapPresentation Object3D Vector3 Quaternion ConstructionPlane :=
  new_SnapPresentation nearby_snaps intersections
                       actualConstructionPlaneGiven camera indicator
                       (omap helper activated).

(** What the presenter dispatches on the editor's signals. *)
Inductive Signal :=
| PointPickerChanged
| Snapped (payload : option (Vector3 * list string)).

(** Objects are told apart by identity. *)
Context `{EqDecision Object3D}.

(** three.js's [Object3D.add(object)], which [helpers], a [THREE.Scene],
    inherits: an object that is a child already is taken out of the
    children first; then the object is pushed at their end. *)
Definition Object3D_add (children : list Object3D) (object : Object3D)
  : list Object3D :=
  filter (fun child => child <> object) children ++ [object].

(** [for (const o of objects) scene.add(o)] and [scene.add(...objects)] *)
Definition add_all (children objects : list Object3D) : list Object3D :=
  fold_left Object3D_add objects children.

(** The objects of a list, each at its last occurrence only. *)
Fixpoint last_occurrences (objects : list Object3D) : list Object3D :=
  match objects with
  | [] => []
  | o :: rest =>
      if bool_decide (o ∈ rest) then last_occurrences rest
      else o :: last_occurrences rest
  end.

(** What [onPointerMove] and [clear] write: the cursor helper's visibility
    and position, the children of the [helpers] scene, and the signals
    dispatched so far. *)
Record Presenter := {
  cursor_visible : bool;
  cursor_position : Vector3;
  children : list Object3D;
  dispatched : list Signal
}.

(** [onPointerMove], lines 128-151.  [project] is
    [v => v.clone().project(viewport.camera)]. *)
Definition onPointerMove (project : Vector3 -> Vector3)
    (presentation : @SnapPresentation Object3D Vector3 Quaternion
                                      ConstructionPlane)
    (this : Presenter) : Presenter :=
  (* helpers.clear(); for (const i of indicators) helpers.add(i) *)
  let scene := add_all [] (nearby presentation) in
  match info presentation with
  | None =>
      {| cursor_visible := false;
         cursor_position := cursor_position this;
         children := scene;
         dispatched := dispatched this ++ [PointPickerChanged] |}
  | Some i =>
      {| cursor_visible := true;
         cursor_position := cursorPosition (spread i);
         (* if (newHelpers.length > 0) helpers.add(...newHelpers) *)
         children := if (0 <? length (helpers presentation))%nat
                     then add_all scene (helpers presentation) else scene;
         dispatched :=
           dispatched this
           ++ [Snapped (if (0 <? length (names presentation))%nat
                        then Some (project (position (spread i)),
                                   names presentation)
                        else None)] |}
  end.

(** [clear], lines 153-158 *)
Definition clear (this : Presenter) : Presenter :=
  {| cursor_visible := false;
     cursor_position := cursor_position this;
     children := [];
     dispatched := dispatched this ++ [PointPickerChanged] |}.

End Presenter.

End SnapPresenter.

(** ** part_003: the toolbar's Model *)
Module ToolbarModel.

(** The command classes of [cmd.*] the model offers. *)
Inductive Command :=
| DeleteCommand | ShellCommand | ExtrudeCommand
| MoveCommand | RotateCommand | ScaleCommand | SymmetryCommand
| UnionCommand | IntersectionCommand | DifferenceCommand
| DraftSolidCommand | OffsetCurveCommand | ActionFaceCommand
| CreateFaceCommand | CutCommand | RevolutionCommand | MirrorCommand
| FilletCurveCommand | LoftCommand | JoinCurvesCommand.

#[global] Instance Command_eq_dec : EqDecision Command.
Proof. solve_decision. Defined.

(** The [size] of each set of the selection ([HasSelection]). *)
Record Selection := {
  curves : nat;
  solids : nat;
  faces : nat;
  controlPoints : nat;
  regions : nat;
  edges : nat
}.

(** [if (condition) { result.push(...) }] *)
Definition push_if (condition : bool) (pushed : list Command)
    (result : list Command) : list Command :=
  if condition then result ++ pushed else result.

(** [get commands()], lines 16-66 *)
Definition commands (selection : Selection) : list Command :=
  let curves := curves selection in
  let solids := solids selection in
  let faces := faces selection in
  let controlPoints := controlPoints selection in
  let regions := regions selection in
  let edges := edges selection in
  let result := [] in
  let result :=
    push_if ((0 <? curves) || (0 <? solids) || (0 <? faces)
             || (0 <? controlPoints))%nat
            [DeleteCommand] result in
  let result :=
    push_if ((0 <? curves) || (0 <? solids) || (0 <? faces))%nat
            [ShellCommand] result in
  let result := push_if (0 <? regions)%nat [ExtrudeCommand] result in
  let result :=
    push_if (0 <? solids)%nat
            ([MoveCommand; RotateCommand; ScaleCommand]
             ++ if ((faces =? 0) && (edges =? 0) && (curves =? 0))%nat
                then [SymmetryCommand] else [])
            result in
  let result :=
    push_if (1 <? solids)%nat
            [UnionCommand; IntersectionCommand; DifferenceCommand] result in
  let result :=
    push_if (0 <? faces)%nat
            [DraftSolidCommand; OffsetCurveCommand; ExtrudeCommand;
             ActionFaceCommand; CreateFaceCommand] result in
  let result :=
    push_if (((0 <? faces) || (0 <? solids)) && (0 <? curves))%nat
            [CutCommand] result in
  let result :=
    push_if (0 <? curves)%nat
            [ExtrudeCommand; RevolutionCommand; MirrorCommand;
             FilletCurveCommand; OffsetCurveCommand] result in
  let result :=
    push_if (1 <? curves)%nat [LoftCommand; JoinCurvesCommand] result in
  let result :=
    push_if (0 <? controlPoints)%nat [FilletCurveCommand] result in
  result.

(** How often a command is offered. *)
Definition offered (c : Command) (selection : Selection) : nat :=
  length (filter (fun c' => c' = c) (commands selection)).

Definition bool_to_nat (b : bool) : nat := if b then 1%nat else 0%nat.

(** The selections [commands] cannot tell apart: it only asks whether a
    size is 0, 1 or more. *)
Definition clip (n : nat) : nat := Nat.min n 2.

Definition clipped (selection : Selection) : Selection :=
  {| curves := clip (curves selection); solids := clip (solids selection);
     faces := clip (faces selection);
     controlPoints := clip (controlPoints selection);
     regions := clip (regions selection); edges := clip (edges selection) |}.

(** The same selection with another number of selected edges. *)
Definition with_edges (n : nat) (selection : Selection) : Selection :=
  {| curves := curves selection; solids := solids selection;
     faces := faces selection; controlPoints := controlPoints selection;
     regions := regions selection; edges := n |}.

End ToolbarModel.

(** ** part_003: ViewportControlMultiplexer *)
Module ViewportControlMultiplexer.

(** [throw new Error("invalid state")] *)
Inductive Error := InvalidState.

Section Multiplexer.
(** The world the controls act on, and what the viewport hands them:
    intersections, mouse events, positions. *)
Context {W Intersections MouseEvent Position : Type}.

(** The methods of a [ViewportControl] the multiplexer calls. *)
Record ViewportControl := {
  startHover : Intersections -> W -> W;
  continueHover : Intersections -> W -> W;
  endHover : W -> W;
  startDrag : MouseEvent -> Position -> W -> W;
  continueDrag : MouseEvent -> Position -> W -> W;
  endDrag : Position -> W -> W;
  startClick : Intersections -> W -> bool * W;
  endClick : Intersections -> W -> W
}.

(** The controls are objects; a [Set] tells them apart by identity.  Here
    an identity is a number and [control] gives the object behind it. *)
Context (control : nat -> ViewportControl).

(** [Set.prototype.add]: insertion order, no second entry. *)
Definition Set_add (x : nat) (set : list nat) : list nat :=
  if decide (x ∈ set) then set else set ++ [x].

(** [Set.prototype.delete] *)
Definition Set_delete (x : nat) (set : list nat) : list nat :=
  filter (fun y => y ≠ x) set.

(** The two fields, lines 134-135. *)
Record Multiplexer := { controls : list nat; winner : option nat }.

Definition new_Multiplexer : Multiplexer :=
  {| controls := []; winner := None |}.

(** [unshift(first)], lines 137-142 *)
Definition unshift (first : nat) (this : Multiplexer) : Multiplexer :=
  let ordered := controls this in
  {| controls := fold_left (fun set c => Set_add c set) ordered
                           (Set_add first []);
     winner := winner this |}.

(** [push(...controls)], lines 144-148 *)
Definition push (cs : list nat) (this : Multiplexer) : Multiplexer :=
  {| controls := fold_left (fun set c => Set_add c set) cs (controls this);
     winner := winner this |}.

(** [delete(control)], lines 150-152 *)
Definition delete (c : nat) (this : Multiplexer) : Multiplexer :=
  {| controls := Set_delete c (controls this); winner := winner this |}.

(** [for (const control of this.controls) body(control)] *)
Definition for_each (body : ViewportControl -> W -> W) (this : Multiplexer)
    (w : W) : W :=
  fold_left (fun w0 c => body (control c) w0) (controls this) w.

(** [startHover], [continueHover], [endHover], lines 154-170 *)
Definition mux_startHover (i : Intersections) := for_each (fun c => startHover c i).
Definition mux_continueHover (i : Intersections) := for_each (fun c => continueHover c i).
Definition mux_endHover := for_each endHover.

(** The loop of [startClick], lines 188-193: the controls asked, the one
    that accepted if any, and the world. *)
Fixpoint startClick_loop (cs : list nat) (i : Intersections) (w : W)
  : list nat * option nat * W :=
  match cs with
  | [] => ([], None, w)
  | c :: rest =>
      let '(accepted, w1) := startClick (control c) i w in
      if accepted then ([c], Some c, w1)
      else let '(asked, won, w2) := startClick_loop rest i w1 in
           (c :: asked, won, w2)
  end.

(** [startClick], lines 187-195: the controls asked, the result, the
    multiplexer and the world. *)
Definition mux_startClick (i : Intersections) (this : Multiplexer) (w : W)
  : list nat * bool * Multiplexer * W :=
  let '(asked, won, w1) := startClick_loop (controls this) i w in
  match won with
  | Some c => (asked, true, {| controls := controls this; winner := Some c |}, w1)
  | None => (asked, false, this, w1)
  end.

(** [endClick], lines 197-200 *)
Definition mux_endClick (i : Intersections) (this : Multiplexer) (w : W) : W :=
  match winner this with
  | None => w
  | Some c => endClick (control c) i w
  end.

(** [startDrag], [continueDrag], [endDrag], lines 172-185 *)
Definition mux_startDrag (e : MouseEvent) (p : Position) (this : Multiplexer)
    (w : W) : Error + W :=
  match winner this with
  | None => inl InvalidState
  | Some c => inr (startDrag (control c) e p w)
  end.

Definition mux_continueDrag (e : MouseEvent) (p : Position)
    (this : Multiplexer) (w : W) : Error + W :=
  match winner this with
  | None => inl InvalidState
  | Some c => inr (continueDrag (control c) e p w)
  end.

Definition mux_endDrag (p : Position) (this : Multiplexer) (w : W)
  : Error + W :=
  match winner this with
  | None => inl InvalidState
  | Some c => inr (endDrag (control c) p w)
  end.

(** What a viewport does with a multiplexer. *)
Inductive Call :=
| CallUnshift (first : nat)
| CallPush (cs : list nat)
| CallDelete (c : nat)
| CallStartHover (i : Intersections)
| CallContinueHover (i : Intersections)
| CallEndHover
| CallStartClick (i : Intersections)
| CallEndClick (i : Intersections)
| CallStartDrag (e : MouseEvent) (p : Position)
| CallContinueDrag (e : MouseEvent) (p : Position)
| CallEndDrag (p : Position).

(** One call: what it returned if it was a [startClick], the multiplexer
    and the world after it.  A drag call that throws leaves both as they
    were. *)
Definition call (c : Call) (this : Multiplexer) (w : W)
  : option bool * Multiplexer * W :=
  match c with
  | CallUnshift first => (None, unshift first this, w)
  | CallPush cs => (None, push cs this, w)
  | CallDelete c => (None, delete c this, w)
  | CallStartHover i => (None, this, mux_startHover i this w)
  | CallContinueHover i => (None, this, mux_continueHover i this w)
  | CallEndHover => (None, this, mux_endHover this w)
  | CallStartClick i =>
      let '(_, result, this1, w1) := mux_startClick i this w in
      (Some result, this1, w1)
  | CallEndClick i => (None, this, mux_endClick i this w)
  | CallStartDrag e p =>
      (None, this, match mux_startDrag e p this w with
                   | inr w1 => w1 | inl _ => w end)
  | CallContinueDrag e p =>
      (None, this, match mux_continueDrag e p this w with
                   | inr w1 => w1 | inl _ => w end)
  | CallEndDrag p =>
      (None, this, match mux_endDrag p this w with
                   | inr w1 => w1 | inl _ => w end)
  end.

(** A sequence of calls: the results of its [startClick]s, in order, and
    the multiplexer and world at the end. *)
Fixpoint calls (cs : list Call) (this : Multiplexer) (w : W)
  : list bool * Multiplexer * W :=
  match cs with
  | [] => ([], this, w)
  | c :: rest =>
      let '(r, this1, w1) := call c this w in
      let '(rs, this2, w2) := calls rest this1 w1 in
      (match r with Some b => b :: rs | None => rs end, this2, w2)
  end.

End Multiplexer.

(** Controls that write their number into a log whenever they are called;
    a click is accepted by the controls numbered 2 and up. *)
Definition logging_control (c : nat)
  : @ViewportControl (list nat) unit unit unit :=
  {| startHover := fun _ w => w ++ [c];
     continueHover := fun _ w => w ++ [c];
     endHover := fun w => w ++ [c];
     startDrag := fun _ _ w => w ++ [c];
     continueDrag := fun _ _ w => w ++ [c];
     endDrag := fun _ w => w ++ [c];
     startClick := fun _ w => (Nat.leb 2%nat c, w ++ [c]);
     endClick := fun _ w => w ++ [c] |}.

End ViewportControlMultiplexer.

(** * Properties *)

Module GeometryIdEncoderFacts.
Import GeometryIdEncoder.

Example encode_small : encode face 3 5 = inr (3 * 65536 + 32768 + 5).
Proof. reflexivity. Qed.

Example roundtrip_small :
  roundtrip face 3 5 = Some {| parentId := 3; type := 1; index := 5 |}.
Proof. reflexivity. Qed.

Example roundtrip_index_4096 :
  roundtrip edge 0 4096 = Some {| parentId := 0; type := 0; index := 0 |}.
Proof. reflexivity. Qed.

(** *** Arithmetic reading of the 32-bit operators on small operands *)

Lemma to_int32_small z : - 2 ^ 31 <= z < 2 ^ 31 -> JS.to_int32 z = z.
Proof. intros Hz. unfold JS.to_int32. rewrite Z.mod_small; lia. Qed.

Lemma lor_disjoint_add hi lo n :
  0 <= n -> 0 <= lo < 2 ^ n -> Z.lor (hi * 2 ^ n) lo = hi * 2 ^ n + lo.
Proof.
  intros Hn Hlo. symmetry. apply Z.add_nocarry_lor.
  apply Z.bits_inj'. intros k Hk.
  rewrite Z.land_spec, Z.bits_0, <- Z.shiftl_mul_pow2 by lia.
  destruct (Z.ltb_spec k n) as [Hlt | Hge].
  - rewrite Z.shiftl_spec_low by lia. reflexivity.
  - rewrite andb_comm.
    replace (Z.testbit lo k) with false; [reflexivity |].
    symmetry. rewrite <- (Z.mod_small lo (2 ^ n)) by lia.
    apply Z.mod_pow2_bits_high. lia.
Qed.

(** Masking with [0xef] keeps a 7-bit value whose bit 4 is clear. *)
Lemma land_0xef_keep x :
  0 <= x < 128 -> Z.testbit x 4 = false -> Z.land x 0xef = x.
Proof.
  intros Hx H4. apply Z.bits_inj'. intros k Hk. rewrite Z.land_spec.
  destruct (Z.eq_dec k 4) as [-> | Hne]; [rewrite H4; reflexivity |].
  destruct (Z.ltb_spec k 8) as [Hlt | Hge].
  - assert (Hcases : k = 0 \/ k = 1 \/ k = 2 \/ k = 3 \/ k = 5 \/ k = 6 \/ k = 7)
      by lia.
    destruct Hcases as [-> | [-> | [-> | [-> | [-> | [-> | ->]]]]]];
      cbn [Z.testbit]; apply andb_true_r.
  - replace (Z.testbit x k) with false; [reflexivity |].
    symmetry. rewrite <- (Z.mod_small x (2 ^ 8)) by lia.
    apply Z.mod_pow2_bits_high. lia.
Qed.

(** Within the range where nothing wraps and bit 12 of the index is clear,
    [encode] is the positional sum [parentId * 2^16 + type * 2^15 + index]. *)
Lemma encode_value t p i :
  0 <= p < 2 ^ 15 -> 0 <= i < 2 ^ 15 -> Z.testbit i 12 = false ->
  encode t p i = inr (p * 65536 + type_code t * 32768 + i).
Proof.
  intros Hp Hi H12. unfold encode.
  change (JS.shl 1 16) with 65536. change (JS.shl 1 15) with 32768.
  destruct (Z.gtb_spec p 65536) as [? | _]; [lia |].
  destruct (Z.gtb_spec i 32768) as [? | _]; [lia |].
  f_equal.
  assert (Hhi : JS.shl p 16 = p * 2 ^ 16).
  { unfold JS.shl. change (16 mod 32) with 16.
    rewrite (to_int32_small p) by lia.
    rewrite Z.shiftl_mul_pow2 by lia. apply to_int32_small. lia. }
  assert (Hc : JS.shl (match t with edge => 0 | face => 1 end) 7
               = type_code t * 128) by (destruct t; reflexivity).
  assert (Hq : 0 <= i / 256 < 128) by (split; [apply Z.div_pos | apply Z.div_lt_upper_bound]; lia).
  assert (Hm : JS.and (JS.sar i 8) 0xef = i / 256).
  { unfold JS.and, JS.sar. change (8 mod 32) with 8.
    rewrite (to_int32_small i) by lia.
    rewrite Z.shiftr_div_pow2 by lia. change (2 ^ 8) with 256.
    rewrite (to_int32_small (i / 256)) by lia.
    change (JS.to_int32 0xef) with 0xef.
    apply land_0xef_keep; [exact Hq |].
    change 256 with (2 ^ 8). rewrite <- Z.shiftr_div_pow2 by lia.
    rewrite Z.shiftr_spec by lia. exact H12. }
  assert (Hd : JS.or (JS.shl (match t with edge => 0 | face => 1 end) 7)
                     (JS.and (JS.sar i 8) 0xef) = type_code t * 128 + i / 256).
  { rewrite Hc, Hm. unfold JS.or.
    assert (Ht : type_code t = 0 \/ type_code t = 1) by (destruct t; auto).
    rewrite !to_int32_small by lia.
    change 128 with (2 ^ 7). apply lor_disjoint_add; lia. }
  assert (He : JS.and (JS.sar i 0) 255 = i mod 256).
  { unfold JS.and, JS.sar. change (0 mod 32) with 0.
    rewrite Z.shiftr_0_r. rewrite (to_int32_small i) by lia.
    rewrite (to_int32_small i) by lia.
    change (JS.to_int32 255) with (Z.ones 8). rewrite Z.land_ones by lia.
    reflexivity. }
  rewrite Hd, He, Hhi.
  assert (Ht : type_code t = 0 \/ type_code t = 1) by (destruct t; auto).
  assert (Hr : 0 <= i mod 256 < 256) by (apply Z.mod_pos_bound; lia).
  assert (Hd8 : JS.shl (type_code t * 128 + i / 256) 8
                = (type_code t * 128 + i / 256) * 2 ^ 8).
  { unfold JS.shl. change (8 mod 32) with 8.
    rewrite (to_int32_small (type_code t * 128 + i / 256)) by lia.
    rewrite Z.shiftl_mul_pow2 by lia. apply to_int32_small. lia. }
  rewrite Hd8. unfold JS.or.
  rewrite (to_int32_small (p * 2 ^ 16)) by lia.
  rewrite (to_int32_small ((type_code t * 128 + i / 256) * 2 ^ 8)) by lia.
  rewrite lor_disjoint_add by lia.
  rewrite (to_int32_small (i mod 256)) by lia.
  rewrite to_int32_small by lia.
  replace (p * 2 ^ 16 + (type_code t * 128 + i / 256) * 2 ^ 8)
    with ((p * 256 + type_code t * 128 + i / 256) * 2 ^ 8) by lia.
  rewrite lor_disjoint_add by lia.
  pose proof (Z.div_mod i 256 ltac:(lia)). lia.
Qed.

(** [decode] reads the three fields back from a positional sum. *)
Lemma decode_value p tc i :
  0 <= p < 2 ^ 15 -> 0 <= tc <= 1 -> 0 <= i < 2 ^ 15 ->
  decode (p * 65536 + tc * 32768 + i)
  = {| parentId := p; type := tc; index := i |}.
Proof.
  intros Hp Ht Hi. unfold decode.
  set (id := p * 65536 + tc * 32768 + i).
  assert (Hid : 0 <= id < 2 ^ 31) by (unfold id; lia).
  assert (Hlow : JS.and id 0xffff = tc * 32768 + i).
  { unfold JS.and. rewrite to_int32_small by lia.
    change (JS.to_int32 0xffff) with (Z.ones 16). rewrite Z.land_ones by lia.
    unfold id. change (2 ^ 16) with 65536.
    rewrite <- Z.add_assoc, Z.add_comm, Z.mod_add by lia.
    apply Z.mod_small. lia. }
  rewrite Hlow. f_equal.
  - unfold JS.sar. change (16 mod 32) with 16.
    rewrite to_int32_small by lia. rewrite Z.shiftr_div_pow2 by lia.
    unfold id. change (2 ^ 16) with 65536.
    rewrite <- Z.add_assoc, Z.add_comm, Z.div_add by lia.
    rewrite Z.div_small; lia.
  - unfold JS.sar. change (15 mod 32) with 15.
    rewrite to_int32_small by lia. rewrite Z.shiftr_div_pow2 by lia.
    change (2 ^ 15) with 32768.
    rewrite Z.add_comm, Z.div_add by lia. rewrite Z.div_small; lia.
  - unfold JS.and. rewrite to_int32_small by lia.
    change (JS.to_int32 0x7fff) with (Z.ones 15). rewrite Z.land_ones by lia.
    change (2 ^ 15) with 32768.
    rewrite Z.add_comm, Z.mod_add by lia. apply Z.mod_small. lia.
Qed.

(** The round trip holds on the sub-range the two masks agree on:
    parent ids below 2^15 and indices below 2^15 whose bit 12 is clear. *)
Lemma roundtrip_agreeing_range t p i :
  0 <= p < 2 ^ 15 -> 0 <= i < 2 ^ 15 -> Z.testbit i 12 = false ->
  roundtrip t p i
  = Some {| parentId := p; type := type_code t; index := i |}.
Proof.
  intros Hp Hi H12. unfold roundtrip.
  rewrite encode_value by assumption.
  rewrite decode_value; [reflexivity | lia | destruct t; simpl; lia | lia].
Qed.

Lemma roundtrip_agreeing_range_witness :
  roundtrip face 1234 3000
  = Some {| parentId := 1234; type := 1; index := 3000 |}.
Proof.
  apply (roundtrip_agreeing_range face 1234 3000); [lia | lia | reflexivity].
Defined.

(** [encode] throws exactly on [parentId > 2^16] or [index > 2^15]. *)
Lemma encode_throws_iff t p i :
  encode t p i = inl PreconditionFailure <-> (p > 2 ^ 16 \/ i > 2 ^ 15).
Proof.
  unfold encode. change (JS.shl 1 16) with (2 ^ 16).
  change (JS.shl 1 15) with (2 ^ 15).
  destruct (Z.gtb_spec p (2 ^ 16)) as [Hp | Hp];
    destruct (Z.gtb_spec i (2 ^ 15)) as [Hi | Hi];
    split; intros Hthrow; try reflexivity; try lia; try discriminate.
Qed.

(** C9. The round trip the claim asks for does not hold on the claimed
    range.  [encode] masks the high byte of the index with [0xef], which
    drops bit 12 and lets bit 15 through into the type bit, while [decode]
    reads 15 index bits; and parent ids from 2^15 on come back negative (or
    as 0 for 2^16) from the signed shifts.  The code evaluated at inputs
    the guards accept: *)
Theorem encoder_roundtrip_fails_on_guarded_range :
  roundtrip edge 0 4096 = Some {| parentId := 0; type := 0; index := 0 |}
  /\ roundtrip face 7 4097 = Some {| parentId := 7; type := 1; index := 1 |}
  /\ roundtrip edge 0 32768 = Some {| parentId := 0; type := 1; index := 0 |}
  /\ roundtrip edge 32768 0
     = Some {| parentId := -32768; type := 0; index := 0 |}
  /\ roundtrip edge 65536 0 = Some {| parentId := 0; type := 0; index := 0 |}.
Proof. repeat split. Qed.

End GeometryIdEncoderFacts.

(** ** The recompute engine against the tests of part_000 *)
Module RecomputeEngineTests.
Import RecomputeEngine FakeFactory.

(** test 'simple update', lines 43-47 *)
Example test_simple_update :
  updateCount (run [Update; Resolve] factory) = Some 1%nat
  /\ promise_resolved 0 (run [Update; Resolve] factory) = Some true.
Proof. split; vm_compute; reflexivity. Qed.

(** test 'does not enqueue multiple updates', lines 50-65 *)
Example test_does_not_enqueue :
  updateCount (run [Update; Update; Update; Update; Update; Update; Update;
                    Resolve; Resolve] factory) = Some 2%nat.
Proof. vm_compute. reflexivity. Qed.

(** test "it keeps going if there's an exception", lines 67-77 *)
Example test_keeps_going :
  updateCount (run [Update; Update; Reject; Resolve] factory) = Some 2%nat
  /\ promise_resolved 0 (run [Update; Update; Reject; Resolve] factory) = Some true.
Proof. split; vm_compute; reflexivity. Qed.

(** test "works serially", lines 79-92 *)
Example test_works_serially :
  updateCount (run [Update; Resolve; Update; Resolve] factory) = Some 2%nat.
Proof. vm_compute. reflexivity. Qed.

(** test "in case of error, it reverts to last successful parameter",
    lines 94-110 *)
Example test_reverts :
  revertOnError (run revert_test factory) = Some 1
  /\ updateCount (run revert_test factory) = Some 3%nat.
Proof. split; vm_compute; reflexivity. Qed.

End RecomputeEngineTests.

(** ** Cancellable.ts *)
Module CancellableFacts.
Import Cancellable.

Section Generic.
Context {W : Type}.
Implicit Types (w : W) (rs : list (Resource W)) (body : Resource W -> Callback W).

Lemma times_1 (c : Callback W) w : times 1 c w = c w.
Proof. simpl. unfold seq. destruct (c w); reflexivity. Qed.

Lemma times_2 (c : Callback W) w : times 2 c w = seq c c w.
Proof.
  simpl. unfold seq. destruct (c w) as [w1 | err w1]; [| reflexivity].
  destruct (c w1); reflexivity.
Qed.

(** One pass over a concatenation is the pass over the first part, then, if
    it returned, the pass over the second. *)
Lemma for_of_app rs1 rs2 body w :
  for_of (rs1 ++ rs2) body w
  = then_traced (for_of rs1 body) (for_of rs2 body) w.
Proof.
  revert w. induction rs1 as [| r rs1 IH]; intros w; simpl.
  - unfold then_traced. simpl. destruct (for_of rs2 body w). reflexivity.
  - unfold then_traced in *. simpl.
    destruct (body r w) as [w1 | err w1]; [| reflexivity].
    rewrite IH. destruct (for_of rs1 body w1) as [tr1 [w2 | err w2]].
    + destruct (for_of rs2 body w2). reflexivity.
    + reflexivity.
Qed.

(** The resources entered are always an initial segment of the list. *)
Lemma for_of_prefix rs body w : fst (for_of rs body w) `prefix_of` rs.
Proof.
  revert w. induction rs as [| r rs IH]; intros w; simpl.
  - reflexivity.
  - destruct (body r w) as [w1 | err w1].
    + specialize (IH w1). destruct (for_of rs body w1) as [tr c]. simpl in *.
      by apply prefix_cons.
    + simpl. apply prefix_cons, prefix_nil.
Qed.

(** If the loop returns, every resource was entered. *)
Lemma for_of_returned rs body w :
  returned (snd (for_of rs body w)) = true -> fst (for_of rs body w) = rs.
Proof.
  revert w. induction rs as [| r rs IH]; intros w; simpl; [reflexivity |].
  destruct (body r w) as [w1 | err w1]; [| discriminate].
  specialize (IH w1). destruct (for_of rs body w1) as [tr c]. simpl in *.
  intros Hc. by rewrite IH.
Qed.

(** The first throw ends the loop: what follows it is not entered. *)
Lemma for_of_first_throw rs1 r rs2 body w w1 err w2 :
  for_of rs1 body w = (rs1, Normal w1) ->
  body r w1 = Throw err w2 ->
  for_of (rs1 ++ r :: rs2) body w = (rs1 ++ [r], Throw err w2).
Proof.
  intros H1 Hr. rewrite for_of_app. unfold then_traced. rewrite H1.
  simpl. rewrite Hr. reflexivity.
Qed.

(** If no body throws, all are entered, in order. *)
Lemma for_of_no_throw rs body w :
  (forall r w0, r ∈ rs -> returned (body r w0) = true) ->
  fst (for_of rs body w) = rs /\ returned (snd (for_of rs body w)) = true.
Proof.
  revert w. induction rs as [| r rs IH]; intros w Hall; simpl; [done |].
  pose proof (Hall r w ltac:(left)) as Hr.
  destruct (body r w) as [w1 | err w1]; [| discriminate].
  destruct (IH w1) as [Htr Hc].
  { intros r0 w0 Hin. apply Hall. by right. }
  destruct (for_of rs body w1) as [tr c]. simpl in *. by subst.
Qed.

Lemma times_ext (c1 c2 : Callback W) n w :
  (forall w0, c1 w0 = c2 w0) -> times n c1 w = times n c2 w.
Proof.
  intros Hext. revert w. induction n as [| n IH]; intros w; [done |].
  simpl. unfold seq. rewrite Hext. destruct (c2 w); [apply IH | done].
Qed.

(** C4, amended. cancel() and finish() of a CancellablePromise are the two
    callbacks its executor returned, stored unchanged: every call runs the
    callback again, [n] calls run it [n] times, and finish() after cancel()
    runs the finish callback.  Two calls of a registrar's
    cancel() (finish()) are one pass over its resources followed, if it
    returned, by a second pass over the same resources.  Neither class
    keeps a state that would turn later calls into no-ops. *)
Theorem cancel_and_finish_run_the_callbacks_again
    {T} (new_Promise : W -> PromiseOps W T * W) (executor : Executor T)
    (reg : CancellableRegistor W) w0 :
  (forall n w,
      times n (cp_cancel (fst (CancellablePromise_new new_Promise executor w0))) w
      = times n (h_cancel (fst (executor (fst (new_Promise w0))
                                         (snd (new_Promise w0))))) w)
  /\ (forall n w,
      times n (cp_finish (fst (CancellablePromise_new new_Promise executor w0))) w
      = times n (h_finish (fst (executor (fst (new_Promise w0))
                                         (snd (new_Promise w0))))) w)
  /\ (forall w,
      seq (cp_cancel (fst (CancellablePromise_new new_Promise executor w0)))
          (cp_finish (fst (CancellablePromise_new new_Promise executor w0))) w
      = seq (h_cancel (fst (executor (fst (new_Promise w0))
                                     (snd (new_Promise w0)))))
            (h_finish (fst (executor (fst (new_Promise w0))
                                     (snd (new_Promise w0))))) w)
  /\ (forall w,
      then_traced (Registor_cancel reg) (Registor_cancel reg) w
      = for_of (resources reg ++ resources reg) cancel w)
  /\ (forall w,
      then_traced (Registor_finish reg) (Registor_finish reg) w
      = for_of (resources reg ++ resources reg) finish w).
Proof.
  unfold CancellablePromise_new.
  destruct (new_Promise w0) as [ops w1]. simpl.
  destruct (executor ops w1) as [h w2]. simpl.
  repeat split; intros; try reflexivity;
    unfold Registor_cancel, Registor_finish; by rewrite for_of_app.
Qed.

(** C5, amended. A registrar's cancel() calls cancel() on its resources in
    registration order and stops at the first one that throws: the
    exception leaves cancel(), and the resources registered after the
    throwing one are not cancelled.  If none throws, every resource is
    cancelled, in registration order.  finish() does the same with
    finish(). *)
Theorem registrar_stops_at_the_first_throw (reg : CancellableRegistor W) w :
  (fst (Registor_cancel reg w) `prefix_of` resources reg
   /\ (returned (snd (Registor_cancel reg w)) = true ->
       fst (Registor_cancel reg w) = resources reg)
   /\ (forall rs1 r rs2 w1 err w2,
          resources reg = rs1 ++ r :: rs2 ->
          for_of rs1 cancel w = (rs1, Normal w1) ->
          cancel r w1 = Throw err w2 ->
          Registor_cancel reg w = (rs1 ++ [r], Throw err w2)))
  /\ (fst (Registor_finish reg w) `prefix_of` resources reg
      /\ (returned (snd (Registor_finish reg w)) = true ->
          fst (Registor_finish reg w) = resources reg)
      /\ (forall rs1 r rs2 w1 err w2,
             resources reg = rs1 ++ r :: rs2 ->
             for_of rs1 finish w = (rs1, Normal w1) ->
             finish r w1 = Throw err w2 ->
             Registor_finish reg w = (rs1 ++ [r], Throw err w2))).
Proof.
  unfold Registor_cancel, Registor_finish.
  split; (split; [apply for_of_prefix |]; split; [apply for_of_returned |];
          intros rs1 r rs2 w1 err w2 -> H1 Hr; by eapply for_of_first_throw).
Qed.

End Generic.

Lemma registrar_stops_at_the_first_throw_witness :
  Registor_cancel thrower_then_logger []
  = ([thrower "a"], Throw "a.cancel failed" [])
  /\ Registor_finish thrower_then_logger []
     = ([thrower "a"], Throw "a.finish failed" []).
Proof.
  split.
  - exact (proj2 (proj2 (proj1
             (registrar_stops_at_the_first_throw thrower_then_logger [])))
             [] (thrower "a") [logger "b"] [] _ [] eq_refl eq_refl eq_refl).
  - exact (proj2 (proj2 (proj2
             (registrar_stops_at_the_first_throw thrower_then_logger [])))
             [] (thrower "a") [logger "b"] [] _ [] eq_refl eq_refl eq_refl).
Defined.

(** C4 as stated fails: a second cancel() of a CancellablePromise runs the
    executor's cancel callback a second time, and a second cancel() of a
    registrar cancels every resource a second time. *)
Lemma cancel_twice_is_not_cancel_once :
  times 2 (cp_cancel logging_promise) [] = Normal ["cancel"; "cancel"]
  /\ times 1 (cp_cancel logging_promise) [] = Normal ["cancel"]
  /\ times 2 (cp_cancel logging_promise) []
     <> times 1 (cp_cancel logging_promise) []
  /\ times 2 (cp_finish logging_promise) []
     <> times 1 (cp_finish logging_promise) []
  /\ seq (cp_cancel logging_promise) (cp_finish logging_promise) []
     = Normal ["cancel"; "finish"]
  /\ snd (then_traced (Registor_cancel two_loggers)
                      (Registor_cancel two_loggers) [])
     = Normal ["a.cancel"; "b.cancel"; "a.cancel"; "b.cancel"]
  /\ snd (Registor_cancel two_loggers []) = Normal ["a.cancel"; "b.cancel"]
  /\ snd (then_traced (Registor_cancel two_loggers)
                      (Registor_cancel two_loggers) [])
     <> snd (Registor_cancel two_loggers []).
Proof. vm_compute. repeat split; discriminate. Qed.

(** C5 as stated fails: with a resource whose cancel() throws registered
    before a second one, cancel() never reaches the second. *)
Lemma registrar_cancel_skips_resources_after_a_throw :
  resources thrower_then_logger = [thrower "a"; logger "b"]
  /\ Registor_cancel thrower_then_logger []
     = ([thrower "a"], Throw "a.cancel failed" [])
  /\ fst (Registor_cancel thrower_then_logger [])
     <> resources thrower_then_logger
  /\ world_of (snd (Registor_cancel thrower_then_logger [])) = []
  /\ cancel (logger "b") [] = Normal ["b.cancel"].
Proof.
  split; [reflexivity |]. split; [reflexivity |].
  split; [| split; reflexivity].
  intros Heq. apply (f_equal length) in Heq. vm_compute in Heq. discriminate.
Qed.

End CancellableFacts.

(** ** The recompute engine: snapshot and restore *)
Module RecomputeEngineFacts.
Import RecomputeEngine.

Section Engine.
Context {V : Type}.
Implicit Types (e : Engine V) (ps good : gmap string V) (keys : list string).

Lemma snapshot_lookup_untracked ps keys k :
  k ∉ keys -> snapshot ps keys !! k = None.
Proof.
  induction keys as [| k0 keys IH]; intros Hnot; [done |].
  apply not_elem_of_cons in Hnot as [Hne Hnot]. simpl.
  destruct (ps !! k0); [rewrite lookup_insert_ne by done |]; by apply IH.
Qed.

Lemma snapshot_lookup_tracked ps keys k :
  k ∈ keys -> snapshot ps keys !! k = ps !! k.
Proof.
  induction keys as [| k0 keys IH]; intros Hin; [by apply elem_of_nil in Hin |].
  simpl. destruct (decide (k0 = k)) as [-> | Hne].
  - destruct (ps !! k) as [v |] eqn:Hk.
    + by rewrite lookup_insert_eq.
    + destruct (decide (k ∈ keys)) as [Hin' | Hnot]; [by apply IH |].
      by apply snapshot_lookup_untracked.
  - apply elem_of_cons in Hin as [-> | Hin]; [done |].
    destruct (ps !! k0); [rewrite lookup_insert_ne by done |]; by apply IH.
Qed.

Lemma restore_lookup_tracked ps keys good k :
  k ∈ keys -> restore ps keys good !! k = good !! k.
Proof.
  induction keys as [| k0 keys IH]; intros Hin; [by apply elem_of_nil in Hin |].
  simpl. destruct (decide (k0 = k)) as [-> | Hne].
  - destruct (good !! k) as [v |] eqn:Hk.
    + by rewrite lookup_insert_eq.
    + by rewrite lookup_delete_eq.
  - apply elem_of_cons in Hin as [-> | Hin]; [done |].
    destruct (good !! k0).
    + rewrite lookup_insert_ne by done. by apply IH.
    + rewrite lookup_delete_ne by done. by apply IH.
Qed.

Lemma restore_lookup_untracked ps keys good k :
  k ∉ keys -> restore ps keys good !! k = ps !! k.
Proof.
  induction keys as [| k0 keys IH]; intros Hnot; [done |].
  apply not_elem_of_cons in Hnot as [Hne Hnot]. simpl.
  destruct (good !! k0).
  - rewrite lookup_insert_ne by done. by apply IH.
  - rewrite lookup_delete_ne by done. by apply IH.
Qed.

(** Restoring a snapshot that was just taken changes nothing. *)
Lemma restore_snapshot ps keys : restore ps keys (snapshot ps keys) = ps.
Proof.
  apply map_eq. intros k. destruct (decide (k ∈ keys)) as [Hin | Hnot].
  - rewrite restore_lookup_tracked by done. by apply snapshot_lookup_tracked.
  - by apply restore_lookup_untracked.
Qed.

(** *** What is preserved by every step *)

Lemma init_in_step_with_backend keys ps :
  in_step_with_backend (init keys ps).
Proof. repeat split. Qed.

Lemma step_in_step_with_backend e ev e' :
  in_step_with_backend e -> step e ev = inr e' -> in_step_with_backend e'.
Proof.
  destruct e as [ps keys lg cc ph be ws].
  unfold in_step_with_backend. simpl. intros [Hser Hph] Hstep.
  destruct ev as [| | | k v]; simpl in Hstep.
  - (* update() *)
    unfold update in Hstep. simpl in Hstep.
    destruct ph; simplify_eq; simpl; try (split; [done | done]).
    destruct Hph as [Hout Hhd]. rewrite Hout.
    destruct be as [| [n args | n ok] rest]; try done; subst; simpl.
    rewrite Nat.eqb_refl. simpl in *. by rewrite Hser.
  - (* the call in flight succeeds *)
    unfold on_resolve in Hstep. simpl in Hstep.
    destruct ph; simplify_eq; simpl;
      destruct Hph as [Hout Hhd];
      destruct be as [| [n args | n ok] rest]; try done; subst; simpl in *;
      rewrite ?Nat.eqb_refl; simpl; rewrite ?Hser; repeat split; lia.
  - (* the call in flight fails *)
    unfold on_reject in Hstep. simpl in Hstep.
    destruct ph; simplify_eq; simpl;
      destruct Hph as [Hout Hhd];
      destruct be as [| [n args | n ok] rest]; try done; subst; simpl in *;
      rewrite ?Nat.eqb_refl; simpl; rewrite ?Hser; repeat split; lia.
  - (* a parameter is edited *)
    simplify_eq. simpl. done.
Qed.

Lemma run_in_step_with_backend evs e e' :
  in_step_with_backend e -> run evs e = inr e' -> in_step_with_backend e'.
Proof.
  revert e. induction evs as [| ev evs IH]; intros e Hinv Hrun; simpl in Hrun.
  - by simplify_eq.
  - destruct (step e ev) as [err | e1] eqn:Hstep; [done |].
    eapply IH; [| exact Hrun]. by eapply step_in_step_with_backend.
Qed.

Lemma in_step_outstanding e :
  in_step_with_backend e -> 0 <= outstanding (backend e) <= 1.
Proof. intros [_ Hph]. destruct (phase e); destruct Hph as [-> _]; lia. Qed.

Lemma run_app evs1 evs2 e :
  run (evs1 ++ evs2) e
  = match run evs1 e with inl err => inl err | inr e1 => run evs2 e1 end.
Proof.
  revert e. induction evs1 as [| ev evs1 IH]; intros e; simpl; [done |].
  destruct (step e ev); [done | apply IH].
Qed.

Lemma step_promises_fresh e ev e' :
  promises_fresh e -> step e ev = inr e' -> promises_fresh e'.
Proof.
  destruct e as [ps keys lg cc ph be [iss ch cu fo re]].
  unfold promises_fresh. simpl. rewrite !Forall_app. intros (Hfo & Hcu & Hch & Hre).
  assert (Hmono : forall l, Forall (fun p => (p < iss)%nat) l ->
                            Forall (fun p => (p < S iss)%nat) l).
  { intros l Hl. eapply Forall_impl; [exact Hl |]. simpl. intros; lia. }
  intros Hstep. destruct ev as [| | | k v]; simpl in Hstep.
  - unfold update in Hstep. simpl in Hstep.
    destruct ph; simplify_eq; simpl;
      repeat first [rewrite Forall_cons | rewrite Forall_app];
      repeat split; auto with lia.
  - unfold on_resolve in Hstep. simpl in Hstep.
    destruct ph; simplify_eq; simpl;
      repeat first [rewrite Forall_cons | rewrite Forall_app];
      repeat split; auto.
  - unfold on_reject in Hstep. simpl in Hstep.
    destruct ph; simplify_eq; simpl;
      repeat first [rewrite Forall_cons | rewrite Forall_app];
      repeat split; auto.
  - simplify_eq. simpl. rewrite ?Forall_app. auto.
Qed.

Lemma run_promises_fresh evs e e' :
  promises_fresh e -> run evs e = inr e' -> promises_fresh e'.
Proof.
  revert e. induction evs as [| ev evs IH]; intros e Hinv Hrun; simpl in Hrun.
  - by simplify_eq.
  - destruct (step e ev) as [err | e1] eqn:Hstep; [done |].
    eapply IH; [| exact Hrun]. by eapply step_promises_fresh.
Qed.

Lemma init_promises_fresh keys ps : promises_fresh (init keys ps).
Proof. unfold promises_fresh. simpl. constructor. Qed.

(** *** Coalescing *)

(** While a request is already pending, further update() calls only hand
    out promises that wait for the same trailing call. *)
Lemma run_updates_while_pending k e :
  phase e = RunningWithPending ->
  exists fo',
    run (repeat Update k) e
    = inr (set_waiters {| issued := issued (waiters e) + k;
                          chained := chained (waiters e);
                          current := current (waiters e);
                          follow := fo';
                          resolved := resolved (waiters e) |} e)
    /\ forall p, p ∈ fo' <->
                 p ∈ follow (waiters e)
                 \/ (issued (waiters e) <= p < issued (waiters e) + k)%nat.
Proof.
  destruct e as [ps keys lg cc ph be [iss ch cu fo re]]. simpl. intros ->.
  revert iss fo. induction k as [| k IH]; intros iss fo.
  - exists fo. split.
    + simpl. unfold set_waiters. simpl. by rewrite Nat.add_0_r.
    + intros p. split; [auto | intros [? | ?]; [done | lia]].
  - destruct (IH (S iss) (iss :: fo)) as (fo' & Hrun & Hfo').
    exists fo'. split.
    + simpl. unfold update, set_waiters, wait_follow. simpl.
      unfold set_waiters in Hrun. simpl in Hrun. rewrite Hrun.
      by replace (iss + S k)%nat with (S (iss + k)) by lia.
    + intros p. rewrite Hfo', elem_of_cons. split.
      * intros [[-> | ?] | ?]; [right; lia | by left | right; lia].
      * intros [? | ?]; [by left; right |].
        destruct (decide (p = iss)) as [-> | ?]; [by left; left | right; lia].
Qed.

(** C1, amended. Coalescing: on an engine in the Idle phase, [N >= 2]
    calls of update() made back-to-back while the first backend call is
    unresolved lead, when the second backend call succeeds, to exactly two
    backend calls: the initial one and one trailing one, which reads the
    parameters as they stand then (reverted, if the initial call failed);
    and the promise the first update() returned is resolved only when both
    calls have completed (and so is every other promise returned
    meanwhile). *)
Theorem coalescing_two_backend_calls e (N : nat) (first_ok : bool) :
  promises_fresh e -> phase e = Idle -> (2 <= N)%nat ->
  exists e1 e2 e3,
    run (repeat Update N) e = inr e1
    /\ step e1 (completes first_ok) = inr e2
    /\ step e2 Resolve = inr e3
    /\ callCount e1 = S (callCount e) /\ phase e1 = RunningWithPending
    /\ callCount e2 = S (S (callCount e))
    /\ phase e2 = (if first_ok then Running else Reverting)
    /\ callCount e3 = S (S (callCount e)) /\ phase e3 = Idle
    /\ backend e3
       = Settled (S (S (callCount e))) true
         :: Dispatched (S (S (callCount e)))
                       (if first_ok then parameters e else reverted e)
         :: Settled (S (callCount e)) first_ok
         :: Dispatched (S (callCount e)) (parameters e)
         :: backend e
    /\ is_resolved (issued (waiters e)) e1 = false
    /\ is_resolved (issued (waiters e)) e2 = false
    /\ is_resolved (issued (waiters e)) e3 = true
    /\ forall p, (issued (waiters e) <= p < issued (waiters e) + N)%nat ->
                 is_resolved p e3 = true.
Proof.
  intros Hfresh Hidle HN.
  destruct N as [| [| k]]; [lia | lia |].
  destruct e as [ps keys lg cc ph be [iss ch cu fo re]].
  simpl in Hidle. subst ph.
  unfold promises_fresh in Hfresh. simpl in Hfresh.
  rewrite !Forall_app in Hfresh. destruct Hfresh as (Hfo & Hcu & Hch & Hre).
  rewrite Forall_forall in Hfo, Hcu, Hch, Hre.
  change (repeat Update (S (S k))) with (@Update V :: Update :: repeat Update k).
  cbn [run step update snd phase set_phase set_waiters dispatch waiters
       wait_chained wait_follow new_promise parameters trackedKeys lastGood
       callCount backend issued chained current follow resolved].
  match goal with
  | |- context [run (repeat Update k) ?e0] =>
      destruct (run_updates_while_pending k e0 eq_refl) as (fo' & Hrun & Hfo')
  end.
  simpl in Hrun, Hfo'. unfold set_waiters in Hrun. simpl in Hrun.
  assert (Hall : forall p, (iss <= p < iss + S (S k))%nat ->
                           p = iss \/ p ∈ fo').
  { intros p Hp. destruct (decide (p = iss)) as [-> | Hne]; [by left |].
    right. apply Hfo'. rewrite elem_of_cons.
    destruct (decide (p = S iss)) as [-> | Hne']; [left; by left | right; lia]. }
  destruct first_ok; eexists _, _, _; (split; [exact Hrun |]).
  - split; [reflexivity |]. split; [reflexivity |].
    simpl. repeat (split; [reflexivity |]).
    unfold is_resolved. simpl.
    split; [apply bool_decide_eq_false; intros Hin; apply Hre in Hin; lia |].
    split.
    { apply bool_decide_eq_false. rewrite elem_of_app.
      intros [Hin | Hin]; [apply Hcu in Hin | apply Hre in Hin]; lia. }
    split.
    { apply bool_decide_eq_true. rewrite !elem_of_app, elem_of_cons. auto. }
    intros p Hp. apply bool_decide_eq_true.
    rewrite !elem_of_app, elem_of_cons.
    destruct (Hall p Hp) as [-> | Hin]; auto.
  - split; [reflexivity |]. split; [reflexivity |].
    simpl. repeat (split; [reflexivity |]).
    unfold is_resolved. simpl.
    split; [apply bool_decide_eq_false; intros Hin; apply Hre in Hin; lia |].
    split; [apply bool_decide_eq_false; intros Hin; apply Hre in Hin; lia |].
    split.
    { apply bool_decide_eq_true. rewrite !elem_of_app, elem_of_cons. auto. }
    intros p Hp. apply bool_decide_eq_true.
    rewrite !elem_of_app, elem_of_cons.
    destruct (Hall p Hp) as [-> | Hin]; auto.
Qed.

(** *** Failure: revert and resynchronize *)

(** C2. Error recovery: on an engine that has a last-good snapshot, when
    the doUpdate call in flight rejects, the tracked parameters are put
    back to the snapshot before the one additional (resynchronization) call
    is dispatched, which therefore reads the reverted parameters; nothing
    is reported to the callers of update(), whose promises are resolved
    when that call completes; no further call is made.  Counted from an
    idle engine, the failing update() advances the call count by two. *)
Theorem failed_call_reverts_and_resynchronizes e good :
  lastGood e = Some good ->
  (phase e = Running \/ phase e = RunningWithPending ->
   exists e1 e2,
     step e Reject = inr e1 /\ step e1 Resolve = inr e2
     /\ phase e1 = Reverting
     /\ (forall k, k ∈ trackedKeys e -> parameters e1 !! k = good !! k)
     /\ (forall k, k ∉ trackedKeys e -> parameters e1 !! k = parameters e !! k)
     /\ backend e1
        = Dispatched (S (callCount e)) (parameters e1)
          :: Settled (callCount e) false :: backend e
     /\ resolved (waiters e1) = resolved (waiters e)
     /\ phase e2 = Idle /\ callCount e2 = S (callCount e)
     /\ backend e2 = Settled (S (callCount e)) true :: backend e1
     /\ parameters e2 = parameters e1 /\ lastGood e2 = Some good
     /\ forall p, p ∈ waiting e -> is_resolved p e2 = true)
  /\ (phase e = Idle ->
      exists e0 e1 e2,
        step e Update = inr e0 /\ step e0 Reject = inr e1
        /\ step e1 Resolve = inr e2
        /\ callCount e2 = S (S (callCount e)) /\ phase e2 = Idle
        /\ (forall k, k ∈ trackedKeys e -> parameters e2 !! k = good !! k)
        /\ calls (backend e2)
           = calls (backend e) ++ [parameters e; parameters e2]
        /\ is_resolved (issued (waiters e)) e2 = true).
Proof.
  intros Hgood.
  destruct e as [ps keys lg cc ph be [iss ch cu fo re]].
  simpl in Hgood. subst lg. split.
  - intros Hph. simpl in Hph.
    assert (Hstep : exists e1,
      step {| parameters := ps; trackedKeys := keys; lastGood := Some good;
              callCount := cc; phase := ph; backend := be;
              waiters := {| issued := iss; chained := ch; current := cu;
                            follow := fo; resolved := re |} |} Reject
      = inr e1
      /\ e1 = {| parameters := restore ps keys good; trackedKeys := keys;
                 lastGood := Some good; callCount := S cc;
                 phase := Reverting;
                 backend := Dispatched (S cc) (restore ps keys good)
                            :: Settled cc false :: be;
                 waiters := {| issued := iss; chained := ch;
                               current := fo ++ cu; follow := [];
                               resolved := re |} |}).
    { destruct Hph as [-> | ->]; eexists; split; reflexivity. }
    destruct Hstep as (e1 & Hstep & ->).
    eexists _, _. split; [exact Hstep |]. split; [reflexivity |].
    simpl. split; [reflexivity |].
    split; [intros k Hk; by apply restore_lookup_tracked |].
    split; [intros k Hk; by apply restore_lookup_untracked |].
    repeat (split; [reflexivity |]).
    intros p Hp. unfold waiting in Hp. simpl in Hp.
    apply bool_decide_eq_true. simpl.
    rewrite !elem_of_app in Hp. rewrite !elem_of_app. tauto.
  - simpl. intros ->. eexists _, _, _.
    split; [reflexivity |]. split; [reflexivity |]. split; [reflexivity |].
    simpl. split; [reflexivity |]. split; [reflexivity |].
    split; [intros k Hk; by apply restore_lookup_tracked |].
    split; [by rewrite <- app_assoc |].
    apply bool_decide_eq_true. simpl. rewrite !elem_of_app, elem_of_cons. auto.
Qed.

(** *** Serial use *)

Lemma run_edits (edits : list (string * V)) e :
  run (map edit edits) e
  = inr (set_parameters (apply_edits edits (parameters e)) e).
Proof.
  revert e. induction edits as [| [k v] edits IH]; intros e.
  - by destruct e.
  - simpl. rewrite IH. by destruct e.
Qed.

(** One awaited update() on an idle engine: one call, and the promise is
    resolved exactly when that call succeeds. *)
Lemma serial_round_from_idle (edits : list (string * V)) e :
  promises_fresh e -> phase e = Idle ->
  exists ea eb,
    run (map edit edits ++ [Update]) e = inr ea
    /\ step ea Resolve = inr eb
    /\ run (serial_round edits) e = inr eb
    /\ callCount ea = S (callCount e) /\ callCount eb = S (callCount e)
    /\ phase ea = Running /\ phase eb = Idle
    /\ issued (waiters eb) = S (issued (waiters e))
    /\ backend eb
       = Settled (S (callCount e)) true
         :: Dispatched (S (callCount e)) (apply_edits edits (parameters e))
         :: backend e
    /\ is_resolved (issued (waiters e)) ea = false
    /\ is_resolved (issued (waiters e)) eb = true
    /\ promises_fresh eb.
Proof.
  intros Hfresh Hidle.
  assert (Hround : forall ea, run (map edit edits ++ [Update]) e = inr ea ->
            forall eb, step ea Resolve = inr eb ->
            run (serial_round edits) e = inr eb).
  { intros ea Ha eb Hb. unfold serial_round.
    change [@Update V; Resolve] with ([@Update V] ++ [Resolve]).
    rewrite app_assoc, run_app, Ha. cbn [run]. by rewrite Hb. }
  pose proof Hfresh as Hfresh'.
  destruct e as [ps keys lg cc ph be [iss ch cu fo re]].
  simpl in Hidle. subst ph.
  unfold promises_fresh in Hfresh. simpl in Hfresh.
  rewrite !Forall_app in Hfresh. destruct Hfresh as (Hfo & Hcu & Hch & Hre).
  rewrite Forall_forall in Hfo, Hcu, Hch, Hre.
  eexists _, _.
  split; [rewrite run_app, run_edits; reflexivity |].
  split; [reflexivity |].
  split; [eapply Hround; [rewrite run_app, run_edits |]; reflexivity |].
  simpl. repeat (split; [reflexivity |]).
  split.
  { apply bool_decide_eq_false. simpl. intros Hin. apply Hre in Hin. lia. }
  split.
  { apply bool_decide_eq_true. simpl. rewrite !elem_of_app, elem_of_cons. auto. }
  apply (run_promises_fresh (serial_round edits) _ _ Hfresh').
  eapply Hround; [rewrite run_app, run_edits |]; reflexivity.
Qed.

Lemma count_updates_app (evs1 evs2 : list (Event V)) :
  count_updates (evs1 ++ evs2) = (count_updates evs1 + count_updates evs2)%nat.
Proof.
  induction evs1 as [| ev evs1 IH]; [done |].
  destruct ev; simpl; by rewrite IH.
Qed.

Lemma count_updates_edits (edits : list (string * V)) :
  count_updates (map edit edits) = 0%nat.
Proof. induction edits as [| kv edits IH]; [done | exact IH]. Qed.

Lemma count_updates_serial (rounds : list (list (string * V))) :
  count_updates (serial_updates rounds) = length rounds.
Proof.
  induction rounds as [| r rounds IH]; [done |].
  unfold serial_updates in *. simpl. unfold serial_round at 1.
  rewrite <- app_assoc, !count_updates_app, count_updates_edits, IH. done.
Qed.

(** C3, amended. Serial correctness when every backend call succeeds: for
    rounds of update() each awaited before the next (the command may edit
    parameters before each), the number of backend calls equals the number
    of update() calls, and the promise of the i-th update() is unresolved
    while its own call is in flight and resolved as soon as it succeeds. *)
Theorem serial_updates_one_call_each (rounds : list (list (string * V))) e :
  promises_fresh e -> phase e = Idle ->
  exists e',
    run (serial_updates rounds) e = inr e'
    /\ count_updates (serial_updates rounds) = length rounds
    /\ callCount e' = (callCount e + length rounds)%nat
    /\ phase e' = Idle
    /\ forall i edits, rounds !! i = Some edits ->
       exists ea eb,
         run (serial_updates (take i rounds) ++ map edit edits ++ [Update]) e
         = inr ea
         /\ step ea Resolve = inr eb
         /\ run (serial_updates (take (S i) rounds)) e = inr eb
         /\ callCount ea = (callCount e + S i)%nat
         /\ callCount eb = (callCount e + S i)%nat
         /\ is_resolved (issued (waiters e) + i) ea = false
         /\ is_resolved (issued (waiters e) + i) eb = true.
Proof.
  revert e. induction rounds as [| r rounds IH]; intros e Hfresh Hidle.
  - exists e. split; [done |]. split; [done |]. split; [simpl; lia |].
    split; [done |]. intros i edits Hi. by rewrite lookup_nil in Hi.
  - destruct (serial_round_from_idle r e Hfresh Hidle)
      as (ea & eb & Ha & Hb & Hr & Hca & Hcb & _ & Hpb & Hiss & _ & Hra & Hrb & Hfb).
    destruct (IH eb Hfb Hpb) as (e' & Hrun & _ & Hc & Hp & Hall).
    assert (Hcons : forall rs evs,
              run (serial_updates (r :: rs) ++ evs) e
              = run (serial_updates rs ++ evs) eb).
    { intros rs evs. unfold serial_updates. simpl.
      by rewrite <- app_assoc, run_app, Hr. }
    exists e'. split.
    { rewrite <- (app_nil_r (serial_updates (r :: rounds))), Hcons.
      by rewrite app_nil_r. }
    split; [apply count_updates_serial |].
    split; [rewrite Hc, Hcb; simpl; lia |].
    split; [exact Hp |].
    intros [| i] edits Hi; simpl in Hi.
    + simplify_eq. exists ea, eb. rewrite !Nat.add_0_r.
      split; [exact Ha |]. split; [exact Hb |].
      split.
      { simpl. unfold serial_updates. simpl. by rewrite app_nil_r. }
      repeat split; try done; lia.
    + destruct (Hall i edits Hi) as (ea' & eb' & Ha' & Hb' & Hr' & Hca' & Hcb' & Hra' & Hrb').
      exists ea', eb'. split; [simpl; by rewrite Hcons |].
      split; [exact Hb' |].
      split.
      { rewrite <- (app_nil_r (serial_updates _)).
        change (take (S (S i)) (r :: rounds)) with (r :: take (S i) rounds).
        rewrite Hcons. by rewrite app_nil_r. }
      rewrite Hiss in Hra', Hrb'.
      replace (issued (waiters e) + S i)%nat with (S (issued (waiters e)) + i)%nat by lia.
      repeat split; try done; lia.
Qed.

(** *** One call at a time *)

(** C6. Serialization: whatever the sequence of update() calls, backend
    outcomes and parameter edits an engine has gone through since it was
    created, at most one backend call is outstanding, and its log of
    backend traffic strictly alternates dispatch and settlement: a call is
    dispatched only after the previous one has settled. *)
Theorem at_most_one_call_in_flight keys ps (evs : list (Event V)) e :
  run evs (init keys ps) = inr e ->
  0 <= outstanding (backend e) <= 1
  /\ serial (backend e) = true
  /\ (outstanding (backend e) = 0 <-> phase e = Idle).
Proof.
  intros Hrun.
  pose proof (run_in_step_with_backend evs _ _
                (init_in_step_with_backend keys ps) Hrun) as Hinv.
  split; [by apply in_step_outstanding |].
  destruct Hinv as [Hser Hph]. split; [exact Hser |].
  destruct (phase e); destruct Hph as [Hout _]; rewrite Hout; split; done.
Qed.

End Engine.

(** The theorems at the fixture of part_000. *)

Lemma coalescing_two_backend_calls_witness :
  exists e1 e2 e3,
    run (repeat Update 7) FakeFactory.factory = inr e1
    /\ step e1 (completes true) = inr e2
    /\ step e2 Resolve = inr e3
    /\ callCount e1 = 1%nat /\ phase e1 = RunningWithPending
    /\ callCount e2 = 2%nat /\ phase e2 = Running
    /\ callCount e3 = 2%nat /\ phase e3 = Idle
    /\ backend e3
       = [Settled 2 true; Dispatched 2 (parameters FakeFactory.factory);
          Settled 1 true; Dispatched 1 (parameters FakeFactory.factory)]
    /\ is_resolved 0 e1 = false
    /\ is_resolved 0 e2 = false
    /\ is_resolved 0 e3 = true
    /\ forall p, (0 <= p < 0 + 7)%nat -> is_resolved p e3 = true.
Proof.
  apply (coalescing_two_backend_calls FakeFactory.factory 7 true);
    [constructor | reflexivity | lia].
Defined.

Lemma failed_call_reverts_and_resynchronizes_witness :
  exists e0 e1 e2,
    step (FakeFactory.after (take 4 FakeFactory.revert_test)) Update = inr e0
    /\ step e0 Reject = inr e1
    /\ step e1 Resolve = inr e2
    /\ callCount e2 = 3%nat /\ phase e2 = Idle
    /\ (forall k, k ∈ ["revertOnError"%string] ->
                  parameters e2 !! k
                  = ({[ "revertOnError"%string := 1 ]} : gmap string Z) !! k)
    /\ calls (backend e2)
       = calls (backend (FakeFactory.after (take 4 FakeFactory.revert_test)))
         ++ [parameters (FakeFactory.after (take 4 FakeFactory.revert_test));
             parameters e2]
    /\ is_resolved 1 e2 = true.
Proof.
  apply (failed_call_reverts_and_resynchronizes
           (FakeFactory.after (take 4 FakeFactory.revert_test))
           {[ "revertOnError"%string := 1 ]});
    [vm_compute; reflexivity | reflexivity].
Defined.

Lemma serial_updates_one_call_each_witness :
  exists e',
    run (serial_updates [[("revertOnError"%string, 1)]; []]) FakeFactory.factory
    = inr e'
    /\ callCount e' = 2%nat /\ phase e' = Idle.
Proof.
  destruct (serial_updates_one_call_each
              [[("revertOnError"%string, 1)]; []] FakeFactory.factory)
    as (e' & Hrun & _ & Hc & Hp & _); [constructor | reflexivity |].
  exists e'. split; [exact Hrun |]. split; [exact Hc | exact Hp].
Defined.

Lemma at_most_one_call_in_flight_witness :
  0 <= outstanding (backend (FakeFactory.after [Update; Update; Reject; Resolve; Update])) <= 1
  /\ serial (backend (FakeFactory.after [Update; Update; Reject; Resolve; Update])) = true
  /\ (outstanding (backend (FakeFactory.after [Update; Update; Reject; Resolve; Update])) = 0
      <-> phase (FakeFactory.after [Update; Update; Reject; Resolve; Update]) = Idle).
Proof.
  apply (at_most_one_call_in_flight ["revertOnError"%string]
           {[ "revertOnError"%string := 0 ]}
           [Update; Update; Reject; Resolve; Update]).
  vm_compute. reflexivity.
Defined.

(** C1 as stated fails: seven update() calls made back-to-back on the
    idle fixture, the first backend call succeeding and the trailing one
    failing, give three backend calls - the trailing call is followed by a
    resynchronization call - and the promise of the first update() is
    resolved only when the third has completed. *)
Lemma coalescing_with_a_failing_trailing_call_makes_three_calls :
  phase FakeFactory.factory = Idle
  /\ FakeFactory.updateCount
       (run (repeat Update 7) FakeFactory.factory) = Some 1%nat
  /\ FakeFactory.updateCount
       (run (repeat Update 7 ++ [Resolve; Reject]) FakeFactory.factory)
     = Some 3%nat
  /\ FakeFactory.promise_resolved 0
       (run (repeat Update 7 ++ [Resolve; Reject]) FakeFactory.factory)
     = Some false
  /\ FakeFactory.updateCount
       (run (repeat Update 7 ++ [Resolve; Reject; Resolve]) FakeFactory.factory)
     = Some 3%nat
  /\ FakeFactory.promise_resolved 0
       (run (repeat Update 7 ++ [Resolve; Reject; Resolve]) FakeFactory.factory)
     = Some true
  /\ phase (FakeFactory.after (repeat Update 7 ++ [Resolve; Reject; Resolve]))
     = Idle
  /\ FakeFactory.updateCount
       (run (repeat Update 7 ++ [Resolve; Reject; Resolve]) FakeFactory.factory)
     <> Some 2%nat.
Proof. vm_compute. repeat split; discriminate. Qed.

(** C3 as stated fails: the test "in case of error, it reverts to last
    successful parameter" makes two update() calls, each awaited before the
    next, and counts three backend calls. *)
Lemma serial_updates_with_a_failure_make_three_calls :
  count_updates FakeFactory.revert_test = 2%nat
  /\ FakeFactory.promise_resolved 0
       (run (take 3 FakeFactory.revert_test) FakeFactory.factory) = Some true
  /\ phase (FakeFactory.after (take 4 FakeFactory.revert_test)) = Idle
  /\ FakeFactory.promise_resolved 1
       (run FakeFactory.revert_test FakeFactory.factory) = Some true
  /\ FakeFactory.updateCount
       (run FakeFactory.revert_test FakeFactory.factory) = Some 3%nat
  /\ FakeFactory.updateCount
       (run FakeFactory.revert_test FakeFactory.factory)
     <> Some (count_updates FakeFactory.revert_test).
Proof. vm_compute. repeat split; discriminate. Qed.

End RecomputeEngineFacts.

(** ** part_002: the translate factories *)
Module TranslateFacts.
Import Number Translate.

(** [10e-6] is the binary64 number nearest to 1/100000: the distance of
    [5902958103587057 / 2^69] from it is below half a unit in the last
    place. *)
Lemma lit_10e_6_nearest :
  (2 * Z.abs (5902958103587057 * 10 ^ 5 - 2 ^ 69) < 10 ^ 5)%Z
  /\ (2 ^ 52 <= 5902958103587057 < 2 ^ 53)%Z.
Proof. split; [reflexivity | split; [discriminate | reflexivity]]. Qed.

Example move_zero_is_noop :
  MoveFactory.transform {| MoveFactory.move := zero3; MoveFactory.pivot := zero3 |}
  = inl NoOpError.
Proof. reflexivity. Qed.

Example move_tiny_is_noop :
  MoveFactory.transform
    {| MoveFactory.move := {| x := lit_1e_6; y := neg_zero; z := lit_1e_6 |};
       MoveFactory.pivot := zero3 |}
  = inl NoOpError.
Proof. vm_compute. reflexivity. Qed.

Example move_threshold_is_not_noop :
  MoveFactory.transform
    {| MoveFactory.move := {| x := lit_10e_6; y := zero; z := zero |};
       MoveFactory.pivot := zero3 |}
  = inr (TV_Move {| x := lit_10e_6; y := zero; z := zero |}).
Proof. vm_compute. reflexivity. Qed.

Example move_NaN_is_not_noop :
  is_NoOp (MoveFactory.transform
             {| MoveFactory.move := {| x := NaN; y := zero; z := zero |};
                MoveFactory.pivot := zero3 |}) = false.
Proof. vm_compute. reflexivity. Qed.

Example rotate_negative_zero_is_noop :
  RotateFactory.transform
    {| RotateFactory.pivot := zero3; RotateFactory.axis := one3;
       RotateFactory.angle := neg_zero |}
  = inl NoOpError.
Proof. reflexivity. Qed.

Example scale_identity_is_noop :
  ScaleFactory.transform
    {| ScaleFactory.scale := one3; ScaleFactory.pivot := zero3 |}
  = inl NoOpError.
Proof. vm_compute. reflexivity. Qed.


(** *** NoOpError *)





(** *** doCancel *)

Lemma doCancel_visual_transform items :
  map visual_transform (doCancel items)
  = repeat (zero3, identity_quaternion, one3) (length items).
Proof. induction items as [| item items IH]; [done |]. simpl. by rewrite IH. Qed.

Lemma at_baseline_visual_transform items :
  Forall at_baseline items
  <-> map visual_transform items
      = repeat (zero3, identity_quaternion, one3) (length items).
Proof.
  induction items as [| item items IH]; [done |].
  rewrite Forall_cons, IH. simpl. unfold at_baseline, visual_transform.
  split.
  - intros [(-> & -> & ->) ->]. done.
  - intros [= -> -> -> H]. done.
Qed.

(** The first callbacks of both [doUpdate]s keep the items and their
    order. *)
Lemma fast_callbacks_keep_the_items decompose updateMatrixWorld rotate_origin
    setFromAxisAngle tv f items :
  map underlying
      (snd (TranslateFactory_fast decompose updateMatrixWorld tv items))
  = map underlying items
  /\ map underlying
         (snd (RotateFactory_fast rotate_origin setFromAxisAngle f items))
     = map underlying items.
Proof.
  unfold TranslateFactory_fast, RotateFactory_fast.
  destruct (decompose tv) as [[p q] s].
  destruct (strict_eq (RotateFactory.angle f) zero); simpl;
    rewrite ?map_map; split; try done; by apply map_ext.
Qed.

(** C8, amended. doCancel puts every item at position (0,0,0), quaternion
    (0,0,0,1) and scale (1,1,1) - constants, read from no baseline and no
    snapshot - and writes nothing else: the items, their order, and the
    matrix and matrixWorld the last update computed stay as they are.  It
    is idempotent and does the same when no update ever ran.  Position,
    quaternion and scale are then those the items had before the first
    update exactly when the items were untransformed then. *)
Theorem doCancel_writes_constants (items0 items : list Item) :
  length items = length items0 ->
  Forall at_baseline (doCancel items)
  /\ map underlying (doCancel items) = map underlying items
  /\ map matrix (doCancel items) = map matrix items
  /\ map matrixWorld (doCancel items) = map matrixWorld items
  /\ doCancel (doCancel items) = doCancel items
  /\ (map visual_transform (doCancel items) = map visual_transform items0
      <-> Forall at_baseline items0)
  /\ (doCancel items0 = items0 <-> Forall at_baseline items0).
Proof.
  intros Hlen.
  split; [unfold doCancel; apply Forall_map, Forall_forall; by intros |].
  split; [unfold doCancel; rewrite map_map; by apply map_ext |].
  split; [unfold doCancel; rewrite map_map; by apply map_ext |].
  split; [unfold doCancel; rewrite map_map; by apply map_ext |].
  split; [unfold doCancel; rewrite map_map; by apply map_ext |].
  split.
  - rewrite doCancel_visual_transform, Hlen, at_baseline_visual_transform.
    split; by intros ->.
  - split.
    + intros H. rewrite <- H.
      unfold doCancel; apply Forall_map, Forall_forall; by intros.
    + clear. induction 1 as [| item its (Hp & Hq & Hs) _ IH]; [done |].
      simpl. rewrite IH. f_equal. destruct item; simpl in *. by subst.
Qed.

Lemma doCancel_writes_constants_witness :
  Forall at_baseline
    (doCancel
       (snd (TranslateFactory_fast
               (fun _ => ({| x := one; y := zero; z := zero |},
                          identity_quaternion, one3))
               (fun _ => ([one], [one]))
               (TV_Move {| x := one; y := zero; z := zero |})
               [new_Item 1; new_Item 2])))
  /\ map visual_transform
       (doCancel
          (snd (TranslateFactory_fast
                  (fun _ => ({| x := one; y := zero; z := zero |},
                             identity_quaternion, one3))
                  (fun _ => ([one], [one]))
                  (TV_Move {| x := one; y := zero; z := zero |})
                  [new_Item 1; new_Item 2])))
     = map visual_transform [new_Item 1; new_Item 2]
  /\ map matrixWorld
       (doCancel
          (snd (TranslateFactory_fast
                  (fun _ => ({| x := one; y := zero; z := zero |},
                             identity_quaternion, one3))
                  (fun _ => ([one], [one]))
                  (TV_Move {| x := one; y := zero; z := zero |})
                  [new_Item 1; new_Item 2])))
     = [[one]; [one]].
Proof.
  destruct (doCancel_writes_constants
              [new_Item 1; new_Item 2]
              (snd (TranslateFactory_fast
                      (fun _ => ({| x := one; y := zero; z := zero |},
                                 identity_quaternion, one3))
                      (fun _ => ([one], [one]))
                      (TV_Move {| x := one; y := zero; z := zero |})
                      [new_Item 1; new_Item 2])))
    as (Hbase & _ & _ & Hmw & _ & Hvt & _); [reflexivity |].
  split; [exact Hbase |].
  split; [apply Hvt; repeat constructor |].
  rewrite Hmw. reflexivity.
Defined.

(** C8 as stated fails: an item that stood at (1,0,0) before the operation
    is put at the origin by doCancel, update or no update; and after an
    update of an untransformed item doCancel leaves the matrixWorld the
    update computed, not the one the item had before. *)
Lemma doCancel_does_not_restore_a_transformed_item :
  doCancel [ {| underlying := 1;
                position := {| x := one; y := zero; z := zero |};
                quaternion := identity_quaternion; scale := one3;
                matrix := identity4; matrixWorld := identity4 |} ]
  = [new_Item 1]
  /\ doCancel [ {| underlying := 1;
                   position := {| x := one; y := zero; z := zero |};
                   quaternion := identity_quaternion; scale := one3;
                   matrix := identity4; matrixWorld := identity4 |} ]
     <> [ {| underlying := 1;
             position := {| x := one; y := zero; z := zero |};
             quaternion := identity_quaternion; scale := one3;
             matrix := identity4; matrixWorld := identity4 |} ]
  /\ doCancel
       (snd (TranslateFactory_fast
               (fun _ => ({| x := one; y := zero; z := zero |},
                          identity_quaternion, one3))
               (fun _ => ([one], [one]))
               (TV_Move {| x := one; y := zero; z := zero |})
               [new_Item 1]))
     <> [new_Item 1].
Proof. vm_compute. repeat split; discriminate. Qed.

End TranslateFacts.

(** ** part_001: SnapPresentation *)
Module SnapPresentationFacts.
Import SnapPresentation.

(** *** [new Set] and [sort] *)

Lemma new_Set_from (names acc : list string) :
  NoDup acc ->
  NoDup (fold_left (fun acc n => if decide (n ∈ acc) then acc else acc ++ [n])
                   names acc)
  /\ forall n,
      n ∈ fold_left (fun acc n => if decide (n ∈ acc) then acc else acc ++ [n])
                    names acc
      <-> n ∈ acc \/ n ∈ names.
Proof.
  revert acc. induction names as [| m names IH]; intros acc Hacc; simpl.
  - split; [done |]. intros n. rewrite elem_of_nil. tauto.
  - destruct (decide (m ∈ acc)) as [Hin | Hnot].
    + destruct (IH acc Hacc) as [Hnd Hmem]. split; [done |].
      intros n. rewrite Hmem, elem_of_cons.
      split; [tauto |]. intros [? | [-> | ?]]; auto.
    + destruct (IH (acc ++ [m])) as [Hnd Hmem].
      { apply NoDup_app. split; [done |].
        split; [| apply NoDup_singleton].
        intros x Hx ->%list_elem_of_singleton. done. }
      split; [done |]. intros n.
      rewrite Hmem, elem_of_app, list_elem_of_singleton, elem_of_cons. tauto.
Qed.

Lemma new_Set_NoDup names : NoDup (new_Set names).
Proof. apply new_Set_from, NoDup_nil_2. Qed.

Lemma elem_of_new_Set names n : n ∈ new_Set names <-> n ∈ names.
Proof.
  unfold new_Set. destruct (new_Set_from names [] (NoDup_nil_2)) as [_ Hmem].
  rewrite Hmem, elem_of_nil. tauto.
Qed.

Lemma sort_Permutation names : sort names ≡ₚ names.
Proof. apply merge_sort_Permutation. Qed.

Lemma sort_sorted names : StronglySorted String.le (sort names).
Proof. apply StronglySorted_merge_sort; apply _. Qed.

(** A list that is sorted and free of duplicates is determined by its
    elements. *)
Lemma sorted_NoDup_unique (l1 l2 : list string) :
  StronglySorted String.le l1 -> StronglySorted String.le l2 ->
  NoDup l1 -> NoDup l2 -> (forall n, n ∈ l1 <-> n ∈ l2) -> l1 = l2.
Proof.
  intros Hs1 Hs2 Hn1 Hn2 Hmem.
  apply (StronglySorted_unique String.le); [done | done |].
  by apply NoDup_Permutation.
Qed.

Example names_are_sorted_and_unique :
  sort (new_Set ["midpoint"; "End"; "center"; "End"; "midpoint"]%string)
  = ["End"; "center"; "midpoint"]%string.
Proof. vm_compute. reflexivity. Qed.

Section Presentation.
Context {Object3D Vector3 Quaternion ConstructionPlane PointSnap : Type}.
Implicit Types (first : @SnapResult Object3D Vector3 Quaternion)
  (rest intersections : list (@SnapResult Object3D Vector3 Quaternion))
  (camera : @Camera Vector3 Quaternion)
  (presenter : @SnapIndicator Object3D Vector3 Quaternion PointSnap)
  (plane : ConstructionPlane) (nearby_snaps : list PointSnap)
  (activatedHelpers hs : list Object3D).

Lemma collect_names intersections hs ns :
  snd (collect intersections hs ns) = ns ++ defined_names intersections.
Proof.
  revert hs ns. induction intersections as [| i rest IH]; intros hs ns; simpl.
  - by rewrite app_nil_r.
  - rewrite IH. unfold defined_names. simpl.
    destruct (name (snap i)); [by rewrite <- app_assoc | done].
Qed.

Lemma collect_helpers intersections hs ns :
  fst (collect intersections hs ns)
  = hs ++ omap (fun i => helper (snap i)) intersections.
Proof.
  revert hs ns. induction intersections as [| i rest IH]; intros hs ns; simpl.
  - by rewrite app_nil_r.
  - rewrite IH. destruct (helper (snap i)); [by rewrite <- app_assoc | done].
Qed.

Lemma names_of_presentation nearby_snaps first rest plane camera presenter
    activatedHelpers :
  names (new_SnapPresentation nearby_snaps (first :: rest) plane camera
                              presenter activatedHelpers)
  = sort (new_Set (defined_names (first :: rest))).
Proof.
  unfold new_SnapPresentation.
  pose proof (collect_names (first :: rest)
                (activatedHelpers ++ [snapIndicatorFor presenter first]) [])
    as Hn.
  destruct (collect (first :: rest) _ []) as [hs ns]. simpl in *. by subst.
Qed.

(** C10. Constructed with no intersection, a SnapPresentation has no
    names, no helpers and no info.  Constructed with at least one, its info
    is the first intersection (with the construction plane and the camera's
    pose), and its names are the defined snap names of all intersections,
    each once, in ascending order. *)
Theorem presentation_info_and_names nearby_snaps first rest plane camera
    presenter activatedHelpers :
  (names (new_SnapPresentation nearby_snaps [] plane camera presenter
                               activatedHelpers) = []
   /\ helpers (new_SnapPresentation nearby_snaps [] plane camera presenter
                                    activatedHelpers) = []
   /\ info (new_SnapPresentation nearby_snaps [] plane camera presenter
                                 activatedHelpers) = None)
  /\ (info (new_SnapPresentation nearby_snaps (first :: rest) plane camera
                                 presenter activatedHelpers)
      = Some {| spread := first; constructionPlane := plane;
                cameraPosition := camera_position camera;
                cameraOrientation := camera_quaternion camera |}
      /\ NoDup (names (new_SnapPresentation nearby_snaps (first :: rest) plane
                                            camera presenter activatedHelpers))
      /\ StronglySorted String.le
           (names (new_SnapPresentation nearby_snaps (first :: rest) plane
                                        camera presenter activatedHelpers))
      /\ forall n,
          n ∈ names (new_SnapPresentation nearby_snaps (first :: rest) plane
                                          camera presenter activatedHelpers)
          <-> n ∈ defined_names (first :: rest)).
Proof.
  split; [done |]. rewrite names_of_presentation.
  split.
  { unfold new_SnapPresentation.
    by destruct (collect (first :: rest) _ []). }
  split; [rewrite sort_Permutation; apply new_Set_NoDup |].
  split; [apply sort_sorted |].
  intros n. by rewrite sort_Permutation, elem_of_new_Set.
Qed.

End Presentation.

End SnapPresentationFacts.

(** ** GeometryGPUPickingAdapter.ts: what the encoders give back *)
Module GeometryIdEncoderRange.
Import GeometryIdEncoder GeometryIdEncoderFacts GeometryGPUPickingAdapter.

Lemma to_int32_wrap z : 2 ^ 31 <= z < 2 ^ 32 -> JS.to_int32 z = z - 2 ^ 32.
Proof.
  intros Hz. unfold JS.to_int32.
  replace (z + 2 ^ 31) with (z - 2 ^ 31 + 1 * 2 ^ 32) by lia.
  rewrite Z.mod_add by lia. rewrite Z.mod_small; lia.
Qed.

(** The 32-bit reading differs from the number by a multiple of 2^32. *)
Lemma to_int32_congruent z : exists q, JS.to_int32 z = z + q * 2 ^ 32.
Proof.
  unfold JS.to_int32. exists (- ((z + 2 ^ 31) / 2 ^ 32)).
  pose proof (Z.div_mod (z + 2 ^ 31) (2 ^ 32) ltac:(lia)). lia.
Qed.

Lemma to_int32_range z : - 2 ^ 31 <= JS.to_int32 z < 2 ^ 31.
Proof.
  unfold JS.to_int32.
  pose proof (Z.mod_pos_bound (z + 2 ^ 31) (2 ^ 32) ltac:(lia)). lia.
Qed.

(** Masking a 7-bit value with [0xef] clears its bit 4. *)
Lemma land_0xef_clears_bit_4 x :
  0 <= x < 128 -> Z.land x 0xef = x - 16 * ((x / 16) mod 2).
Proof.
  intros Hx.
  assert (Hall : forallb (fun n => Z.land (Z.of_nat n) 0xef
                                   =? Z.of_nat n - 16 * ((Z.of_nat n / 16) mod 2))
                         (seq 0 128) = true) by (vm_compute; reflexivity).
  rewrite forallb_forall in Hall.
  specialize (Hall (Z.to_nat x)). rewrite Z2Nat.id in Hall by lia.
  apply Z.eqb_eq, Hall, in_seq. lia.
Qed.

Lemma signed16_range p : 0 <= p < 2 ^ 16 -> - 2 ^ 15 <= signed16 p < 2 ^ 15.
Proof. intros Hp. unfold signed16. destruct (Z.ltb_spec p (2 ^ 15)); lia. Qed.

Lemma carried_index_range i : 0 <= i < 2 ^ 15 -> 0 <= carried_index i < 2 ^ 15.
Proof.
  intros Hi. unfold carried_index.
  pose proof (Z.mod_pos_bound (i / 4096) 2 ltac:(lia)).
  pose proof (Z.div_mod i 4096 ltac:(lia)).
  pose proof (Z.mod_pos_bound i 4096 ltac:(lia)).
  assert (Hq : 0 <= i / 4096) by (apply Z.div_pos; lia).
  assert (Hb : (i / 4096) mod 2 <= i / 4096) by (apply Z.mod_le; lia).
  lia.
Qed.

Lemma carried_index_exact i :
  0 <= i -> Z.testbit i 12 = false -> carried_index i = i.
Proof.
  intros Hi H12. unfold carried_index.
  assert (Hb : (i / 4096) mod 2 = 0).
  { change 4096 with (2 ^ 12). by apply Z.testbit_false. }
  rewrite Hb. lia.
Qed.

(** Whenever the guards let the arguments through and the index is below
    2^15, [encode] is a positional sum of the signed parent id, the type
    bit and the index without its bit 12. *)
Lemma encode_value_general t p i :
  0 <= p < 2 ^ 16 -> 0 <= i < 2 ^ 15 ->
  encode t p i
  = inr (signed16 p * 65536 + type_code t * 32768 + carried_index i).
Proof.
  intros Hp Hi. unfold encode.
  change (JS.shl 1 16) with 65536. change (JS.shl 1 15) with 32768.
  destruct (Z.gtb_spec p 65536) as [? | _]; [lia |].
  destruct (Z.gtb_spec i 32768) as [? | _]; [lia |].
  f_equal.
  pose proof (signed16_range p Hp) as HP.
  assert (Hhi : JS.shl p 16 = signed16 p * 2 ^ 16).
  { unfold JS.shl, signed16. change (16 mod 32) with 16.
    rewrite (to_int32_small p) by lia.
    rewrite Z.shiftl_mul_pow2 by lia.
    destruct (Z.ltb_spec p (2 ^ 15)).
    - apply to_int32_small. lia.
    - rewrite to_int32_wrap by lia. lia. }
  assert (Ht : type_code t = 0 \/ type_code t = 1) by (destruct t; auto).
  assert (Hc : JS.shl (match t with edge => 0 | face => 1 end) 7
               = type_code t * 128) by (destruct t; reflexivity).
  assert (Hq : 0 <= i / 256 < 128)
    by (split; [apply Z.div_pos | apply Z.div_lt_upper_bound]; lia).
  set (b := (i / 4096) mod 2).
  assert (Hb : b = (i / 256 / 16) mod 2)
    by (unfold b; rewrite Z.div_div by lia; reflexivity).
  assert (Hx : 0 <= i / 256 - 16 * b < 128).
  { pose proof (Z.div_mod (i / 256) 16 ltac:(lia)).
    pose proof (Z.mod_pos_bound (i / 256) 16 ltac:(lia)).
    pose proof (Z.mod_pos_bound (i / 256 / 16) 2 ltac:(lia)).
    assert (0 <= i / 256 / 16) by (apply Z.div_pos; lia).
    assert ((i / 256 / 16) mod 2 <= i / 256 / 16) by (apply Z.mod_le; lia).
    lia. }
  assert (Hm : JS.and (JS.sar i 8) 0xef = i / 256 - 16 * b).
  { unfold JS.and, JS.sar. change (8 mod 32) with 8.
    rewrite (to_int32_small i) by lia.
    rewrite Z.shiftr_div_pow2 by lia. change (2 ^ 8) with 256.
    rewrite (to_int32_small (i / 256)) by lia.
    change (JS.to_int32 0xef) with 0xef.
    rewrite land_0xef_clears_bit_4 by exact Hq. by rewrite Hb. }
  assert (Hd : JS.or (JS.shl (match t with edge => 0 | face => 1 end) 7)
                     (JS.and (JS.sar i 8) 0xef)
               = type_code t * 128 + (i / 256 - 16 * b)).
  { rewrite Hc, Hm. unfold JS.or. rewrite !to_int32_small by lia.
    change 128 with (2 ^ 7). apply lor_disjoint_add; lia. }
  assert (He : JS.and (JS.sar i 0) 255 = i mod 256).
  { unfold JS.and, JS.sar. change (0 mod 32) with 0.
    rewrite Z.shiftr_0_r. rewrite (to_int32_small i) by lia.
    rewrite (to_int32_small i) by lia.
    change (JS.to_int32 255) with (Z.ones 8). by rewrite Z.land_ones by lia. }
  rewrite Hd, He, Hhi.
  assert (Hr : 0 <= i mod 256 < 256) by (apply Z.mod_pos_bound; lia).
  assert (Hd8 : JS.shl (type_code t * 128 + (i / 256 - 16 * b)) 8
                = (type_code t * 128 + (i / 256 - 16 * b)) * 2 ^ 8).
  { unfold JS.shl. change (8 mod 32) with 8.
    rewrite (to_int32_small (type_code t * 128 + (i / 256 - 16 * b))) by lia.
    rewrite Z.shiftl_mul_pow2 by lia. apply to_int32_small. lia. }
  rewrite Hd8. unfold JS.or.
  rewrite (to_int32_small (signed16 p * 2 ^ 16)) by lia.
  rewrite (to_int32_small ((type_code t * 128 + (i / 256 - 16 * b)) * 2 ^ 8))
    by lia.
  rewrite lor_disjoint_add by lia.
  rewrite (to_int32_small (i mod 256)) by lia.
  rewrite to_int32_small by lia.
  replace (signed16 p * 2 ^ 16 + (type_code t * 128 + (i / 256 - 16 * b)) * 2 ^ 8)
    with ((signed16 p * 256 + type_code t * 128 + (i / 256 - 16 * b)) * 2 ^ 8)
    by lia.
  rewrite lor_disjoint_add by lia.
  pose proof (Z.div_mod i 256 ltac:(lia)). unfold carried_index. fold b. lia.
Qed.

(** [decode] reads the three fields back from a positional sum, the parent
    id as a signed number. *)
Lemma decode_value_signed p tc i :
  - 2 ^ 15 <= p < 2 ^ 15 -> 0 <= tc <= 1 -> 0 <= i < 2 ^ 15 ->
  decode (p * 65536 + tc * 32768 + i)
  = {| parentId := p; type := tc; index := i |}.
Proof.
  intros Hp Ht Hi. unfold decode.
  set (id := p * 65536 + tc * 32768 + i).
  assert (Hid : - 2 ^ 31 <= id < 2 ^ 31) by (unfold id; lia).
  assert (Hlow : JS.and id 0xffff = tc * 32768 + i).
  { unfold JS.and. rewrite to_int32_small by lia.
    change (JS.to_int32 0xffff) with (Z.ones 16). rewrite Z.land_ones by lia.
    unfold id. change (2 ^ 16) with 65536.
    rewrite <- Z.add_assoc, Z.add_comm, Z.mod_add by lia.
    apply Z.mod_small. lia. }
  rewrite Hlow. f_equal.
  - unfold JS.sar. change (16 mod 32) with 16.
    rewrite to_int32_small by lia. rewrite Z.shiftr_div_pow2 by lia.
    unfold id. change (2 ^ 16) with 65536.
    rewrite <- Z.add_assoc, Z.add_comm, Z.div_add by lia.
    rewrite Z.div_small; lia.
  - unfold JS.sar. change (15 mod 32) with 15.
    rewrite to_int32_small by lia. rewrite Z.shiftr_div_pow2 by lia.
    change (2 ^ 15) with 32768.
    rewrite Z.add_comm, Z.div_add by lia. rewrite Z.div_small; lia.
  - unfold JS.and. rewrite to_int32_small by lia.
    change (JS.to_int32 0x7fff) with (Z.ones 15). rewrite Z.land_ones by lia.
    change (2 ^ 15) with 32768.
    rewrite Z.add_comm, Z.mod_add by lia. apply Z.mod_small. lia.
Qed.

(** X1. The round trip on the whole range below the guards' bounds.  The
    type always comes back; the parent id comes back as a signed 16-bit
    number, so unchanged below 2^15 and lowered by 2^16 from 2^15 on; the
    index comes back without its bit 12. *)
Theorem roundtrip_below_bounds t p i :
  0 <= p < 2 ^ 16 -> 0 <= i < 2 ^ 15 ->
  roundtrip t p i
  = Some {| parentId := signed16 p; type := type_code t;
            index := carried_index i |}.
Proof.
  intros Hp Hi. unfold roundtrip. rewrite encode_value_general by assumption.
  rewrite decode_value_signed; [reflexivity | | | ].
  - by apply signed16_range.
  - destruct t; simpl; lia.
  - by apply carried_index_range.
Qed.

Lemma roundtrip_below_bounds_witness :
  roundtrip face 40000 5000
  = Some {| parentId := -25536; type := 1; index := 904 |}.
Proof. apply (roundtrip_below_bounds face 40000 5000); lia. Defined.

(** X2. The decoded index is the original exactly when bit 12 of the index is
    clear, and the decoded parent id exactly when it is below 2^15. *)
Theorem roundtrip_exact_iff t p i :
  0 <= p < 2 ^ 16 -> 0 <= i < 2 ^ 15 ->
  (roundtrip t p i
   = Some {| parentId := p; type := type_code t; index := i |}
   <-> p < 2 ^ 15 /\ Z.testbit i 12 = false).
Proof.
  intros Hp Hi. rewrite roundtrip_below_bounds by assumption. split.
  - intros [= Hpar Hidx]. split.
    + unfold signed16 in Hpar. destruct (Z.ltb_spec p (2 ^ 15)); lia.
    + apply Z.testbit_false; [lia |]. unfold carried_index in Hidx.
      change (2 ^ 12) with 4096. lia.
  - intros [Hlt H12]. rewrite carried_index_exact by (lia || assumption).
    unfold signed16. destruct (Z.ltb_spec p (2 ^ 15)); [reflexivity | lia].
Qed.

Lemma roundtrip_exact_iff_witness :
  roundtrip edge 12 4096
  = Some {| parentId := 12; type := 0; index := 4096 |}
  <-> 12 < 2 ^ 15 /\ Z.testbit 4096 12 = false.
Proof. apply (roundtrip_exact_iff edge 12 4096); lia. Defined.

Lemma carried_index_idempotent i :
  0 <= i < 2 ^ 15 -> carried_index (carried_index i) = carried_index i.
Proof.
  intros Hi. apply carried_index_exact; [apply carried_index_range; lia |].
  apply Z.testbit_false; [lia |]. unfold carried_index.
  change (2 ^ 12) with 4096.
  pose proof (Z.mod_pos_bound (i / 4096) 2 ltac:(lia)).
  replace (i - 4096 * ((i / 4096) mod 2))
    with (i + (- ((i / 4096) mod 2)) * 4096) by lia.
  rewrite Z.div_add by lia.
  pose proof (Z.div_mod (i / 4096) 2 ltac:(lia)) as Hdm.
  replace (i / 4096 + - ((i / 4096) mod 2)) with ((i / 4096 / 2) * 2) by lia.
  by rewrite Z.mod_mul by lia.
Qed.

(** X3. Ids collide.  The two values the guards admit beyond the fields'
    widths are encoded as other arguments are: parent id 2^16 as parent id
    0, and edge index 2^15 as face index 0; and an index with bit 12 set is
    encoded as the index without it. *)
Theorem encode_collisions :
  (forall t i, encode t 65536 i = encode t 0 i)
  /\ (forall p, encode edge p 32768 = encode face p 0)
  /\ (forall t p i, 0 <= p < 2 ^ 16 -> 0 <= i < 2 ^ 15 ->
                    encode t p i = encode t p (carried_index i)).
Proof.
  split; [| split].
  - intros t i. reflexivity.
  - intros p. reflexivity.
  - intros t p i Hp Hi.
    rewrite !encode_value_general; try assumption.
    + by rewrite carried_index_idempotent.
    + by apply carried_index_range.
Qed.

Lemma encode_collisions_witness :
  encode face 7 4097 = encode face 7 (carried_index 4097).
Proof. apply (proj2 (proj2 encode_collisions) face 7 4097); lia. Defined.

(** *** The debug encoder *)

(** [id | 0xf0000000] keeps the low 28 bits of [id] and sets the four bits
    above them. *)
Lemma or_alpha id :
  JS.or id 0xf0000000 = JS.to_int32 id mod 2 ^ 28 - 2 ^ 28.
Proof.
  unfold JS.or. change (JS.to_int32 0xf0000000) with (-1 * 2 ^ 28).
  set (z := JS.to_int32 id).
  pose proof (Z.div_mod z (2 ^ 28) ltac:(lia)) as Hz.
  pose proof (Z.mod_pos_bound z (2 ^ 28) ltac:(lia)) as Hlo.
  rewrite Hz at 1.
  rewrite (Z.mul_comm (2 ^ 28)).
  rewrite <- (lor_disjoint_add (z / 2 ^ 28) (z mod 2 ^ 28) 28) by lia.
  rewrite (Z.lor_comm (z / 2 ^ 28 * 2 ^ 28)), <- Z.lor_assoc.
  rewrite <- !Z.shiftl_mul_pow2 by lia.
  rewrite <- Z.shiftl_lor, Z.lor_m1_r.
  rewrite Z.shiftl_mul_pow2 by lia.
  rewrite Z.lor_comm, lor_disjoint_add by lia. lia.
Qed.

(** X4. The debug encoder sets the four alpha bits of every id it
    returns: read as a signed 32-bit number the id lies in [-2^28, 0). *)
Theorem debug_encode_sets_alpha t p i id :
  DebugGeometryIdEncoder.encode t p i = inr id ->
  - 2 ^ 28 <= id < 0 /\ JS.sar id 28 = -1.
Proof.
  unfold DebugGeometryIdEncoder.encode.
  destruct (encode t p i) as [e | id0]; [discriminate |].
  intros [= <-]. rewrite or_alpha.
  pose proof (Z.mod_pos_bound (JS.to_int32 id0) (2 ^ 28) ltac:(lia)) as Hlo.
  split; [lia |].
  unfold JS.sar. change (28 mod 32) with 28.
  rewrite to_int32_small by lia. rewrite Z.shiftr_div_pow2 by lia.
  replace (JS.to_int32 id0 mod 2 ^ 28 - 2 ^ 28)
    with (JS.to_int32 id0 mod 2 ^ 28 + (-1) * 2 ^ 28) by lia.
  rewrite Z.div_add by lia. rewrite Z.div_small by lia. reflexivity.
Qed.

Lemma debug_encode_sets_alpha_witness :
  - 2 ^ 28 <= -268206075 < 0 /\ JS.sar (-268206075) 28 = -1.
Proof.
  apply (debug_encode_sets_alpha face 3 5 (-268206075)). reflexivity.
Defined.

Lemma debug_decode_of_encode t p i :
  0 <= p < 2 ^ 16 -> 0 <= i < 2 ^ 15 ->
  exists id, DebugGeometryIdEncoder.encode t p i = inr id
             /\ DebugGeometryIdEncoder.decode id
                = {| parentId := p mod 2 ^ 12; type := type_code t;
                     index := carried_index i |}.
Proof.
  intros Hp Hi.
  unfold DebugGeometryIdEncoder.encode, DebugGeometryIdEncoder.decode.
  rewrite encode_value_general by assumption.
  eexists. split; [reflexivity |].
  pose proof (signed16_range p Hp) as HP.
  pose proof (carried_index_range i Hi) as HI.
  assert (Ht : 0 <= type_code t <= 1) by (destruct t; simpl; lia).
  set (low := type_code t * 32768 + carried_index i).
  assert (Hlow : 0 <= low < 65536) by (unfold low; lia).
  replace (signed16 p * 65536 + type_code t * 32768 + carried_index i)
    with (signed16 p * 65536 + low) by (unfold low; lia).
  rewrite or_alpha. rewrite (to_int32_small (signed16 p * 65536 + low)) by lia.
  pose proof (Z.mod_pos_bound (signed16 p * 65536 + low) (2 ^ 28) ltac:(lia)).
  assert (Hand : JS.and ((signed16 p * 65536 + low) mod 2 ^ 28 - 2 ^ 28)
                        0x0fffffff
                 = (signed16 p * 65536 + low) mod 2 ^ 28).
  { unfold JS.and. rewrite to_int32_small by lia.
    change (JS.to_int32 0x0fffffff) with (Z.ones 28).
    rewrite Z.land_ones by lia.
    replace ((signed16 p * 65536 + low) mod 2 ^ 28 - 2 ^ 28)
      with ((signed16 p * 65536 + low) mod 2 ^ 28 + (-1) * 2 ^ 28) by lia.
    rewrite Z.mod_add by lia. by rewrite Z.mod_mod by lia. }
  rewrite Hand.
  assert (Hmod : (signed16 p * 65536 + low) mod 2 ^ 28
                 = (p mod 2 ^ 12) * 65536 + low).
  { pose proof (Z.mod_pos_bound p (2 ^ 12) ltac:(lia)).
    pose proof (Z.div_mod p (2 ^ 12) ltac:(lia)).
    unfold signed16. destruct (Z.ltb_spec p (2 ^ 15)).
    - replace (p * 65536 + low)
        with ((p mod 2 ^ 12) * 65536 + low + (p / 2 ^ 12) * 2 ^ 28) by lia.
      rewrite Z.mod_add by lia. apply Z.mod_small. lia.
    - replace ((p - 2 ^ 16) * 65536 + low)
        with ((p mod 2 ^ 12) * 65536 + low + (p / 2 ^ 12 - 16) * 2 ^ 28) by lia.
      rewrite Z.mod_add by lia. apply Z.mod_small. lia. }
  rewrite Hmod. unfold low. rewrite Z.add_assoc.
  pose proof (Z.mod_pos_bound p (2 ^ 12) ltac:(lia)).
  apply decode_value_signed; lia.
Qed.

(** X5. The round trip of the debug encoder.  The alpha bits take the
    place of the four high bits of the parent id, which comes back modulo
    2^12; type and index come back as from the plain encoder. *)
Theorem debug_roundtrip_below_bounds t p i :
  0 <= p < 2 ^ 16 -> 0 <= i < 2 ^ 15 ->
  DebugGeometryIdEncoder.roundtrip t p i
  = Some {| parentId := p mod 2 ^ 12; type := type_code t;
            index := carried_index i |}.
Proof.
  intros Hp Hi. unfold DebugGeometryIdEncoder.roundtrip.
  destruct (debug_decode_of_encode t p i Hp Hi) as (id & -> & ->). done.
Qed.

Lemma debug_roundtrip_below_bounds_witness :
  DebugGeometryIdEncoder.roundtrip edge 5000 77
  = Some {| parentId := 904; type := 0; index := 77 |}.
Proof. apply (debug_roundtrip_below_bounds edge 5000 77); lia. Defined.

(** *** compact2full *)

(** X6. Whichever encoder the build selects - the debug encoder when
    NODE_ENV is development, the plain one otherwise - an id that encoder
    made for an edge is named by [CurveEdge.simpleName] and an id it made
    for a face by [Face.simpleName], with the parent id and index the id
    gives back to that encoder: the index without bit 12, and the parent
    id read as a signed 16-bit number by the plain encoder, modulo 2^12 by
    the debug encoder. *)
Theorem compact2full_of_encode
    (CurveEdge_simpleName Face_simpleName : Z -> Z -> string)
    (NODE_ENV : option string) t p i id :
  0 <= p < 2 ^ 16 -> 0 <= i < 2 ^ 15 ->
  Encoder_encode (encoder NODE_ENV) t p i = inr id ->
  compact2full CurveEdge_simpleName Face_simpleName NODE_ENV id
  = match t with
    | edge => CurveEdge_simpleName (carried_parentId (encoder NODE_ENV) p)
                                   (carried_index i)
    | face => Face_simpleName (carried_parentId (encoder NODE_ENV) p)
                              (carried_index i)
    end.
Proof.
  intros Hp Hi Henc. unfold compact2full.
  destruct (encoder NODE_ENV);
    cbn [Encoder_encode Encoder_decode carried_parentId] in *.
  - rewrite encode_value_general in Henc by assumption.
    injection Henc as <-.
    rewrite decode_value_signed.
    + by destruct t.
    + by apply signed16_range.
    + destruct t; simpl; lia.
    + by apply carried_index_range.
  - destruct (debug_decode_of_encode t p i Hp Hi) as (id' & Henc' & Hdec).
    rewrite Henc in Henc'. injection Henc' as <-. rewrite Hdec.
    by destruct t.
Qed.

Lemma compact2full_of_encode_witness :
  compact2full (fun p i => if (p =? 904)%Z then "edge 904"%string else "edge"%string)
               (fun p i => "face"%string)
               (Some "development"%string) (-209190835)
  = "edge 904"%string
  /\ compact2full (fun p i => "edge"%string) (fun p i => "face"%string)
                  None 229381
     = "face"%string.
Proof.
  split.
  - apply (compact2full_of_encode
             (fun p i => if (p =? 904)%Z then "edge 904"%string else "edge"%string)
             (fun p i => "face"%string) (Some "development"%string)
             edge 5000 77 (-209190835)); [lia | lia | reflexivity].
  - apply (compact2full_of_encode (fun p i => "edge"%string)
             (fun p i => "face"%string) None face 3 5 229381);
      [lia | lia | reflexivity].
Defined.

End GeometryIdEncoderRange.

(** ** Cancellable.ts: registering, then cancelling or finishing *)
Module CancellableUseFacts.
Import Cancellable CancellableFacts CancellableUse.

Section Generic.
Context {W : Type}.
Implicit Types (w : W) (xs rs : list (Resource W))
  (reg : CancellableRegistor W).

Lemma register_all_resources xs reg :
  resources (register_all xs reg) = resources reg ++ xs.
Proof.
  revert reg. induction xs as [| x xs IH]; intros reg; simpl.
  - by rewrite app_nil_r.
  - rewrite IH. simpl. by rewrite <- app_assoc.
Qed.

(** The world a loop leaves is the one the bodies make one after the
    other, up to the first throw. *)
Lemma for_of_world rs (body : Resource W -> Callback W) w :
  snd (for_of rs body w) = run_all (map body rs) w.
Proof.
  revert w. induction rs as [| r rs IH]; intros w; simpl; [done |].
  unfold seq. destruct (body r w) as [w1 | err w1]; [| done].
  rewrite <- IH. by destruct (for_of rs body w1).
Qed.

(** X7. Resources registered one after the other on a new registrar are
    cancelled in the order of registration: if none of their cancel()
    throws, cancel() calls every one of them, in that order, returns, and
    leaves the world their callbacks make one after the other; the same
    for finish(). *)
Theorem registered_resources_are_cancelled_in_order xs w :
  (forall x, x ∈ xs -> never_throws (cancel x)) ->
  (forall x, x ∈ xs -> never_throws (finish x)) ->
  resources (register_all xs Registor_new) = xs
  /\ Registor_cancel (register_all xs Registor_new) w
     = (xs, run_all (map cancel xs) w)
  /\ returned (run_all (map cancel xs) w) = true
  /\ Registor_finish (register_all xs Registor_new) w
     = (xs, run_all (map finish xs) w)
  /\ returned (run_all (map finish xs) w) = true.
Proof.
  intros Hc Hf. unfold Registor_cancel, Registor_finish.
  rewrite register_all_resources. simpl.
  destruct (for_of_no_throw xs cancel w) as [Htr Hret].
  { intros r w0 Hr. by apply Hc. }
  destruct (for_of_no_throw xs finish w) as [Htr' Hret'].
  { intros r w0 Hr. by apply Hf. }
  rewrite <- !for_of_world.
  split; [done |].
  split; [by rewrite <- Htr at 2; destruct (for_of xs cancel w) |].
  split; [done |].
  split; [by rewrite <- Htr' at 2; destruct (for_of xs finish w) | done].
Qed.

Lemma map_cancel_disposables (disposes : list (Callback W)) :
  map cancel (map CancellableDisposable disposes) = disposes
  /\ map finish (map CancellableDisposable disposes) = disposes.
Proof. rewrite !map_map. split; apply map_id. Qed.

Lemma for_of_all_returned rs (body : Resource W -> Callback W) w w1 :
  run_all (map body rs) w = Normal w1 -> for_of rs body w = (rs, Normal w1).
Proof.
  intros H. pose proof (for_of_world rs body w) as Hw. rewrite H in Hw.
  pose proof (for_of_returned rs body w) as Hr. rewrite Hw in Hr.
  destruct (for_of rs body w) as [tr c]. simpl in *.
  by rewrite Hr, Hw.
Qed.

(** X8. A disposable is disposed whether the command is cancelled or
    finished: on a registrar of [CancellableDisposable]s, cancel() and
    finish() do the same.  Both dispose the disposables in the order of
    registration and leave the world their dispose() calls make one after
    the other: all of them if none throws, and otherwise those up to and
    including the first that throws, whose exception leaves cancel() and
    finish(). *)
Theorem disposables_cancel_as_they_finish (disposes : list (Callback W)) w :
  Registor_cancel (register_all (map CancellableDisposable disposes)
                                Registor_new) w
  = Registor_finish (register_all (map CancellableDisposable disposes)
                                  Registor_new) w
  /\ snd (Registor_cancel (register_all (map CancellableDisposable disposes)
                                        Registor_new) w)
     = run_all disposes w
  /\ (forall w1,
        run_all disposes w = Normal w1 ->
        Registor_cancel (register_all (map CancellableDisposable disposes)
                                      Registor_new) w
        = (map CancellableDisposable disposes, Normal w1))
  /\ (forall ds1 d ds2 w1 err w2,
        disposes = ds1 ++ d :: ds2 ->
        run_all ds1 w = Normal w1 ->
        d w1 = Throw err w2 ->
        Registor_cancel (register_all (map CancellableDisposable disposes)
                                      Registor_new) w
        = (map CancellableDisposable (ds1 ++ [d]), Throw err w2)).
Proof.
  unfold Registor_cancel, Registor_finish.
  rewrite register_all_resources. simpl.
  pose proof (proj1 (map_cancel_disposables disposes)) as Hc.
  split; [| split; [| split]].
  - clear Hc. generalize w.
    induction disposes as [| d ds IH]; intros w0; simpl; [done |].
    destruct (d w0) as [w1 | err w1]; [| done]. by rewrite IH.
  - by rewrite for_of_world, Hc.
  - intros w1 H. apply for_of_all_returned. by rewrite Hc.
  - intros ds1 d ds2 w1 err w2 -> H1 Hd.
    rewrite !map_app. simpl.
    apply (for_of_first_throw _ _ _ _ _ w1); [| exact Hd].
    apply for_of_all_returned.
    by rewrite (proj1 (map_cancel_disposables ds1)).
Qed.

(** The promise [CancellablePromise.resolve()] makes has nothing to
    cancel or finish: any number of cancel() and finish() calls returns
    and leaves the world as it was. *)
Theorem resolved_promise_ignores_cancel_and_finish
    (new_Promise : W -> PromiseOps W unit * W) w0 (n m : nat) w :
  times n (cp_cancel (fst (CancellablePromise_resolve new_Promise w0))) w
  = Normal w
  /\ times m (cp_finish (fst (CancellablePromise_resolve new_Promise w0))) w
     = Normal w
  /\ seq (times n (cp_cancel (fst (CancellablePromise_resolve new_Promise w0))))
         (times m (cp_finish (fst (CancellablePromise_resolve new_Promise w0))))
         w
     = Normal w.
Proof.
  unfold CancellablePromise_resolve, CancellablePromise_new.
  destruct (new_Promise w0) as [ops w1]. simpl.
  assert (Hn : forall k w', times k (@Normal W) w' = Normal w').
  { induction k as [| k IH]; intros w'; [done | simpl; unfold seq; apply IH]. }
  unfold seq. by rewrite !Hn.
Qed.

End Generic.

Lemma registered_resources_are_cancelled_in_order_witness :
  resources (register_all [logger "a"; logger "b"] Registor_new)
  = [logger "a"; logger "b"]
  /\ Registor_cancel (register_all [logger "a"; logger "b"] Registor_new) []
     = ([logger "a"; logger "b"],
        run_all (map cancel [logger "a"; logger "b"]) [])
  /\ returned (run_all (map cancel [logger "a"; logger "b"]) []) = true
  /\ Registor_finish (register_all [logger "a"; logger "b"] Registor_new) []
     = ([logger "a"; logger "b"],
        run_all (map finish [logger "a"; logger "b"]) [])
  /\ returned (run_all (map finish [logger "a"; logger "b"]) []) = true.
Proof.
  apply (registered_resources_are_cancelled_in_order
           [logger "a"; logger "b"] []);
    intros x Hx w; apply list_elem_of_In in Hx;
    destruct Hx as [<- | [<- | []]]; reflexivity.
Defined.

Lemma disposables_cancel_as_they_finish_witness :
  Registor_cancel
    (register_all (map CancellableDisposable
                       [logging "a"; throwing "b"; logging "c"])
                  Registor_new) []
  = (map CancellableDisposable [logging "a"; throwing "b"],
     Throw "b" ["a"]).
Proof.
  apply (proj2 (proj2 (proj2 (disposables_cancel_as_they_finish
                                [logging "a"; throwing "b"; logging "c"] [])))
           [logging "a"] (throwing "b") [logging "c"] ["a"] "b" ["a"]);
    reflexivity.
Defined.

End CancellableUseFacts.

(** ** part_002: calculate and the no-op parameters *)
Module TranslateUseFacts.
Import Number Translate TranslateUse.

(** *** calculate *)

Lemma calculate_loop_calls tv models :
  calculate_loop tv models
  = (omap (call_for tv) (supported_prefix models),
     if forallb supported models
     then inr (omap (call_for tv) models)
     else inl InvalidPrecondition).
Proof.
  induction models as [| m models IH]; [done |].
  destruct m as [id | id | id]; simpl; [| | done];
    rewrite IH; by destruct (forallb supported models).
Qed.

Lemma omap_call_for_length tv models :
  forallb supported models = true ->
  length (omap (call_for tv) models) = length models.
Proof.
  induction models as [| m models IH]; [done |].
  destruct m; simpl; try discriminate; intros H; f_equal; by apply IH.
Qed.

(** X9. When the parameters are not a no-op and every model is a solid or
    a space instance, [calculate] asks the backend for exactly one
    transformation per model, in the order of the models, and returns
    their results in that order. *)
Theorem calculate_one_call_per_model (this : Factory) tv models :
  transform this = inr tv ->
  forallb supported models = true ->
  calculate this models
  = (omap (call_for tv) models, inr (omap (call_for tv) models))
  /\ length (omap (call_for tv) models) = length models
  /\ forall k m, models !! k = Some m ->
                omap (call_for tv) models !! k = call_for tv m.
Proof.
  intros Htv Hall. unfold calculate. rewrite Htv, calculate_loop_calls, Hall.
  assert (Hpre : supported_prefix models = models).
  { clear Htv. induction models as [| m models IH]; [done |].
    simpl in *. apply andb_prop in Hall as [Hm Hall]. rewrite Hm.
    by rewrite IH. }
  rewrite Hpre. split; [done |].
  split; [by apply omap_call_for_length |].
  clear Htv Hpre. revert Hall.
  induction models as [| m0 models IH]; intros Hall k m Hk; [done |].
  simpl in Hall. apply andb_prop in Hall as [Hm0 Hall].
  destruct k as [| k]; simpl in Hk.
  - simplify_eq. destruct m; simpl in *; done.
  - destruct m0; simpl in *; try done; by apply IH.
Qed.

Lemma calculate_one_call_per_model_witness :
  calculate (Move {| MoveFactory.move := one3; MoveFactory.pivot := zero3 |})
            [Solid 4; SpaceInstance 9]
  = ([TransformedSolid 4 (TV_Move one3); DuplicateAndTransform 9 (TV_Move one3)],
     inr [TransformedSolid 4 (TV_Move one3);
          DuplicateAndTransform 9 (TV_Move one3)]).
Proof.
  apply (calculate_one_call_per_model
           (Move {| MoveFactory.move := one3; MoveFactory.pivot := zero3 |})
           (TV_Move one3) [Solid 4; SpaceInstance 9]);
    vm_compute; reflexivity.
Defined.

(** X10. A model that is neither a solid nor a space instance makes
    [calculate] throw "invalid precondition" - after the backend was asked
    to transform every model in front of it, and no model behind it. *)
Theorem calculate_throws_at_unsupported_model (this : Factory) tv models :
  transform this = inr tv ->
  forallb supported models = false ->
  calculate this models
  = (omap (call_for tv) (supported_prefix models), inl InvalidPrecondition)
  /\ (length (supported_prefix models) < length models)%nat
  /\ supported_prefix models `prefix_of` models.
Proof.
  intros Htv Hall. unfold calculate. rewrite Htv, calculate_loop_calls, Hall.
  split; [done |]. clear Htv.
  induction models as [| m models IH]; [done |].
  simpl in *. destruct (supported m) eqn:Hm; simpl in *.
  - destruct (IH Hall) as [Hlen Hpre]. split; [lia | by apply prefix_cons].
  - split; [lia | apply prefix_nil].
Qed.

Lemma calculate_throws_at_unsupported_model_witness :
  calculate (Move {| MoveFactory.move := one3; MoveFactory.pivot := zero3 |})
            [Solid 4; OtherItem 5; Solid 6]
  = ([TransformedSolid 4 (TV_Move one3)], inl InvalidPrecondition).
Proof.
  apply (calculate_throws_at_unsupported_model
           (Move {| MoveFactory.move := one3; MoveFactory.pivot := zero3 |})
           (TV_Move one3) [Solid 4; OtherItem 5; Solid 6]);
    vm_compute; reflexivity.
Defined.

(** *** Which numbers are a no-op *)

Lemma strict_eq_zero_iff a :
  strict_eq a zero = true <-> exists s, a = S754_zero s.
Proof.
  destruct a as [s | s | | s m e]; simpl; split; intros H;
    try discriminate; eauto; try (by destruct H);
    destruct s; discriminate.
Qed.

Lemma strict_eq_one_iff a : strict_eq one a = true <-> a = one.
Proof.
  split; [| by intros ->].
  unfold strict_eq, SFeqb, one.
  destruct a as [s | s | | s m e];
    cbn -[Z.compare Pos.compare Pos.compare_cont]; try discriminate;
    [destruct s; discriminate |].
  destruct s; [discriminate |].
  destruct (Z.compare_spec (-52) e) as [<- | ? | ?]; try discriminate.
  change (Pos.compare_cont Eq 4503599627370496 m)
    with (Pos.compare 4503599627370496 m).
  destruct (Pos.compare_spec 4503599627370496 m) as [<- | ? | ?];
    try discriminate. done.
Qed.

(** X14. RotateFactory's transform raises NoOpError exactly for the angles
    +0 and -0, and ScaleFactory's exactly for the scale whose three
    components are the number 1. *)
Theorem noop_rotation_and_scale_values :
  (forall f, RotateFactory.transform f = inl NoOpError
             <-> exists s, RotateFactory.angle f = S754_zero s)
  /\ (forall f, ScaleFactory.transform f = inl NoOpError
                <-> ScaleFactory.scale f = one3).
Proof.
  split; intros f.
  - rewrite <- strict_eq_zero_iff. unfold RotateFactory.transform.
    destruct (strict_eq (RotateFactory.angle f) zero); split; done.
  - unfold ScaleFactory.transform, equals.
    destruct (ScaleFactory.scale f) as [sx sy sz]. simpl.
    destruct (strict_eq one sx) eqn:Hx; simpl;
      [apply strict_eq_one_iff in Hx as -> |].
    2: { split; [done |]. intros [= -> _ _]. by rewrite (proj2 (strict_eq_one_iff one)) in Hx. }
    destruct (strict_eq one sy) eqn:Hy; simpl;
      [apply strict_eq_one_iff in Hy as -> |].
    2: { split; [done |]. intros [= ->  _]. by rewrite (proj2 (strict_eq_one_iff one)) in Hy. }
    destruct (strict_eq one sz) eqn:Hz; simpl;
      [apply strict_eq_one_iff in Hz as -> |].
    2: { split; [done |]. intros [= ->]. by rewrite (proj2 (strict_eq_one_iff one)) in Hz. }
    done.
Qed.

Lemma nan_or_infinity_abs a : not_finite a -> nan_or_infinity (abs a).
Proof. destruct a; simpl; intros H; try done; [by right | by left]. Qed.

Lemma nan_or_infinity_add_l a b :
  nan_or_infinity a -> nan_or_infinity (add a (abs b)).
Proof. intros [-> | ->]; destruct b; simpl; by (left + right). Qed.

Lemma nan_or_infinity_add_r a b :
  nan_or_infinity b -> nan_or_infinity (add a b).
Proof.
  intros [-> | ->]; destruct a as [s | s | | s m e]; simpl;
    try (by (left + right)); destruct s; by (left + right).
Qed.

Lemma nan_or_infinity_not_lt a c : nan_or_infinity a -> lt a c = false.
Proof.
  intros [-> | ->]; [done |].
  destruct c as [s | s | | s m e]; simpl; try done; by destruct s.
Qed.

(** X15. A parameter that is NaN or infinite is never taken for a no-op: a
    move with such a component, a rotation by such an angle and a scale
    with such a component all go on to the backend. *)
Theorem not_finite_parameters_are_not_noop :
  (forall f, not_finite (x (MoveFactory.move f))
             \/ not_finite (y (MoveFactory.move f))
             \/ not_finite (z (MoveFactory.move f)) ->
             MoveFactory.transform f = inr (TV_Move (MoveFactory.move f)))
  /\ (forall f, not_finite (RotateFactory.angle f) ->
                is_NoOp (RotateFactory.transform f) = false)
  /\ (forall f, not_finite (x (ScaleFactory.scale f))
                \/ not_finite (y (ScaleFactory.scale f))
                \/ not_finite (z (ScaleFactory.scale f)) ->
                is_NoOp (ScaleFactory.transform f) = false).
Proof.
  split; [| split].
  - intros f H. unfold MoveFactory.transform.
    rewrite nan_or_infinity_not_lt; [done |].
    unfold manhattanLength. destruct H as [H | [H | H]].
    + by apply nan_or_infinity_add_l, nan_or_infinity_add_l, nan_or_infinity_abs.
    + by apply nan_or_infinity_add_l, nan_or_infinity_add_r, nan_or_infinity_abs.
    + by apply nan_or_infinity_add_r, nan_or_infinity_abs.
  - intros f H. unfold RotateFactory.transform.
    destruct (strict_eq (RotateFactory.angle f) zero) eqn:Hz; [| done].
    apply strict_eq_zero_iff in Hz as [s Hs]. rewrite Hs in H. done.
  - intros f H.
    destruct (is_NoOp (ScaleFactory.transform f)) eqn:Hn; [| done].
    assert (Hs : ScaleFactory.scale f = one3).
    { apply noop_rotation_and_scale_values.
      unfold ScaleFactory.transform in *.
      by destruct (equals (ScaleFactory.scale f) identity). }
    rewrite Hs in H. simpl in H. tauto.
Qed.

Lemma not_finite_parameters_are_not_noop_witness :
  MoveFactory.transform
    {| MoveFactory.move := {| x := zero; y := NaN; z := zero |};
       MoveFactory.pivot := zero3 |}
  = inr (TV_Move {| x := zero; y := NaN; z := zero |}).
Proof.
  apply (proj1 not_finite_parameters_are_not_noop). simpl. tauto.
Defined.

End TranslateUseFacts.

(** ** part_001: helpers, names and the presenter *)
Module SnapPresenterFacts.
Import SnapPresentation SnapPresentationFacts SnapPresenter.

Section Presentation.
Context {Object3D Vector3 Quaternion ConstructionPlane PointSnap : Type}.
Implicit Types (first : @SnapResult Object3D Vector3 Quaternion)
  (rest intersections : list (@SnapResult Object3D Vector3 Quaternion))
  (camera : @Camera Vector3 Quaternion)
  (presenter : @SnapIndicator Object3D Vector3 Quaternion PointSnap)
  (plane : ConstructionPlane) (nearby_snaps : list PointSnap)
  (activatedHelpers hs : list Object3D)
  (this : @Presenter Object3D Vector3).
Context `{EqDecision Object3D}.

Lemma helpers_of_presentation nearby_snaps first rest plane camera presenter
    activatedHelpers :
  helpers (new_SnapPresentation nearby_snaps (first :: rest) plane camera
                                presenter activatedHelpers)
  = activatedHelpers ++ [snapIndicatorFor presenter first]
    ++ omap (fun i => helper (snap i)) (first :: rest).
Proof.
  unfold new_SnapPresentation.
  pose proof (collect_helpers (first :: rest)
                (activatedHelpers ++ [snapIndicatorFor presenter first]) [])
    as Hh.
  destruct (collect (first :: rest) _ []) as [hs ns]. simpl in *.
  subst. by rewrite <- app_assoc.
Qed.

Lemma info_of_presentation nearby_snaps first rest plane camera presenter
    activatedHelpers :
  info (new_SnapPresentation nearby_snaps (first :: rest) plane camera
                             presenter activatedHelpers)
  = Some {| spread := first; constructionPlane := plane;
            cameraPosition := camera_position camera;
            cameraOrientation := camera_quaternion camera |}.
Proof.
  unfold new_SnapPresentation. by destruct (collect (first :: rest) _ []).
Qed.

(** X16. The helpers of a presentation with at least one intersection are,
    in this order: the activated helpers, the indicator of the first
    intersection, and the helpers of the snaps of all intersections that
    have one; the nearby indicators are one per nearby snap, whether there
    are intersections or not. *)
Theorem presentation_helpers_in_order nearby_snaps first rest intersections
    plane camera presenter activatedHelpers :
  helpers (new_SnapPresentation nearby_snaps (first :: rest) plane camera
                                presenter activatedHelpers)
  = activatedHelpers ++ [snapIndicatorFor presenter first]
    ++ omap (fun i => helper (snap i)) (first :: rest)
  /\ nearby (new_SnapPresentation nearby_snaps intersections plane camera
                                  presenter activatedHelpers)
     = map (nearbyIndicatorFor presenter) nearby_snaps
  /\ (length activatedHelpers
      < length (helpers (new_SnapPresentation nearby_snaps (first :: rest)
                           plane camera presenter activatedHelpers)))%nat.
Proof.
  split; [apply helpers_of_presentation |].
  split.
  - unfold new_SnapPresentation. destruct intersections as [| i0 rest0]; [done |].
    by destruct (collect (i0 :: rest0) _ []).
  - rewrite helpers_of_presentation, !length_app. simpl. lia.
Qed.

(** X17. The names of a presentation do not depend on the order of the
    intersections nor on how often a name occurs among them: two lists of
    intersections with the same defined snap names give the same names. *)
Theorem presentation_names_ignore_order nearby_snaps nearby_snaps'
    first rest first' rest' plane plane' camera camera' presenter presenter'
    activatedHelpers activatedHelpers' :
  (forall n, n ∈ defined_names (first :: rest)
             <-> n ∈ defined_names (first' :: rest')) ->
  names (new_SnapPresentation nearby_snaps (first :: rest) plane camera
                              presenter activatedHelpers)
  = names (new_SnapPresentation nearby_snaps' (first' :: rest') plane' camera'
                                presenter' activatedHelpers').
Proof.
  intros Hsame. rewrite !names_of_presentation.
  apply sorted_NoDup_unique.
  - apply sort_sorted.
  - apply sort_sorted.
  - rewrite sort_Permutation. apply new_Set_NoDup.
  - rewrite sort_Permutation. apply new_Set_NoDup.
  - intros n. by rewrite !sort_Permutation, !elem_of_new_Set.
Qed.

(** *** The children of the helpers scene *)

Lemma add_all_last_occurrences (cs objects : list Object3D) :
  add_all cs objects
  = filter (fun c => c ∉ objects) cs ++ last_occurrences objects.
Proof.
  revert cs. induction objects as [| o rest IH]; intros cs.
  - simpl. rewrite app_nil_r. symmetry.
    induction cs as [| c cs IHcs]; [done |].
    rewrite filter_cons_True by apply not_elem_of_nil. by rewrite IHcs.
  - change (add_all cs (o :: rest)) with (add_all (Object3D_add cs o) rest).
    rewrite IH. unfold Object3D_add.
    rewrite filter_app, list_filter_filter, <- app_assoc. f_equal.
    + apply list_filter_iff. intros c. rewrite not_elem_of_cons. tauto.
    + simpl. destruct (bool_decide (o ∈ rest)) eqn:Ho.
      * apply bool_decide_eq_true in Ho.
        by rewrite filter_cons_False by (intros Hn; by apply Hn).
      * apply bool_decide_eq_false in Ho.
        by rewrite filter_cons_True by done.
Qed.

Lemma elem_of_last_occurrences (objects : list Object3D) o :
  o ∈ last_occurrences objects <-> o ∈ objects.
Proof.
  induction objects as [| o' rest IH]; [done |]. simpl.
  destruct (bool_decide (o' ∈ rest)) eqn:Ho.
  - apply bool_decide_eq_true in Ho. rewrite IH, elem_of_cons.
    split; [auto | intros [-> | ?]; done].
  - by rewrite !elem_of_cons, IH.
Qed.

Lemma last_occurrences_NoDup (objects : list Object3D) :
  NoDup (last_occurrences objects).
Proof.
  induction objects as [| o rest IH]; [apply NoDup_nil_2 |]. simpl.
  destruct (bool_decide (o ∈ rest)) eqn:Ho; [done |].
  apply bool_decide_eq_false in Ho. apply NoDup_cons_2; [| done].
  by rewrite elem_of_last_occurrences.
Qed.

Lemma last_occurrences_of_NoDup (objects : list Object3D) :
  NoDup objects -> last_occurrences objects = objects.
Proof.
  induction 1 as [| o rest Ho _ IH]; [done |]. simpl.
  by rewrite bool_decide_eq_false_2, IH.
Qed.

(** X18. After a pointer move the cursor helper is visible exactly when the
    presentation was made from at least one intersection.  Without any,
    the cursor stays where it was, pointPickerChanged is dispatched, and
    the scene holds the nearby indicators; with some, the cursor goes to
    the cursor position of the first intersection, snapped is dispatched
    instead, and the scene holds the nearby indicators followed by the
    helpers.  An object that is added more than once is held once, at the
    place of its last addition; so the scene never holds an object twice,
    and it holds the objects in the order they were added when they are
    all different. *)
Theorem pointer_move_shows_cursor_iff_intersections
    (project : Vector3 -> Vector3) nearby_snaps first rest plane camera
    presenter activatedHelpers this :
  onPointerMove project
    (new_SnapPresentation nearby_snaps [] plane camera presenter
                          activatedHelpers) this
  = {| cursor_visible := false;
       cursor_position := cursor_position this;
       children :=
         last_occurrences (map (nearbyIndicatorFor presenter) nearby_snaps);
       dispatched := dispatched this ++ [PointPickerChanged] |}
  /\ cursor_visible
       (onPointerMove project
          (new_SnapPresentation nearby_snaps (first :: rest) plane camera
                                presenter activatedHelpers) this) = true
  /\ cursor_position
       (onPointerMove project
          (new_SnapPresentation nearby_snaps (first :: rest) plane camera
                                presenter activatedHelpers) this)
     = cursorPosition first
  /\ children
       (onPointerMove project
          (new_SnapPresentation nearby_snaps (first :: rest) plane camera
                                presenter activatedHelpers) this)
     = last_occurrences
         (map (nearbyIndicatorFor presenter) nearby_snaps
          ++ activatedHelpers ++ [snapIndicatorFor presenter first]
          ++ omap (fun i => helper (snap i)) (first :: rest))
  /\ NoDup (children
              (onPointerMove project
                 (new_SnapPresentation nearby_snaps (first :: rest) plane
                                       camera presenter activatedHelpers)
                 this))
  /\ (NoDup (map (nearbyIndicatorFor presenter) nearby_snaps
             ++ activatedHelpers ++ [snapIndicatorFor presenter first]
             ++ omap (fun i => helper (snap i)) (first :: rest)) ->
      children
        (onPointerMove project
           (new_SnapPresentation nearby_snaps (first :: rest) plane camera
                                 presenter activatedHelpers) this)
      = map (nearbyIndicatorFor presenter) nearby_snaps
        ++ activatedHelpers ++ [snapIndicatorFor presenter first]
        ++ omap (fun i => helper (snap i)) (first :: rest))
  /\ exists payload,
      dispatched
        (onPointerMove project
           (new_SnapPresentation nearby_snaps (first :: rest) plane camera
                                 presenter activatedHelpers) this)
      = dispatched this ++ [Snapped payload].
Proof.
  split.
  { unfold onPointerMove. simpl. by rewrite add_all_last_occurrences. }
  pose proof (helpers_of_presentation nearby_snaps first rest plane camera
                presenter activatedHelpers) as Hh.
  pose proof (info_of_presentation nearby_snaps first rest plane camera
                presenter activatedHelpers) as Hi.
  assert (Hn : nearby (new_SnapPresentation nearby_snaps (first :: rest) plane
                         camera presenter activatedHelpers)
               = map (nearbyIndicatorFor presenter) nearby_snaps).
  { unfold new_SnapPresentation. by destruct (collect (first :: rest) _ []). }
  assert (Hc : children
                 (onPointerMove project
                    (new_SnapPresentation nearby_snaps (first :: rest) plane
                                          camera presenter activatedHelpers)
                    this)
               = last_occurrences
                   (map (nearbyIndicatorFor presenter) nearby_snaps
                    ++ activatedHelpers ++ [snapIndicatorFor presenter first]
                    ++ omap (fun i => helper (snap i)) (first :: rest))).
  { unfold onPointerMove. rewrite Hi, Hn, Hh. cbn [children].
    rewrite length_app. cbn [length app].
    destruct (0 <? length activatedHelpers + _)%nat eqn:Hlen;
      [| apply Nat.ltb_ge in Hlen; lia].
    unfold add_all. rewrite <- fold_left_app.
    change (fold_left Object3D_add ?l []) with (add_all [] l).
    by rewrite add_all_last_occurrences. }
  rewrite Hc.
  unfold onPointerMove. rewrite Hi. cbn [cursor_visible cursor_position
                                          dispatched spread].
  split; [done |]. split; [done |]. split; [done |].
  split; [apply last_occurrences_NoDup |].
  split; [apply last_occurrences_of_NoDup |]. by eexists.
Qed.

(** X19. The snapped signal of a pointer move carries no payload exactly
    when no intersection has a snap with a name; otherwise it carries the
    projected position of the first intersection and the names, each once
    and in ascending order. *)
Theorem pointer_move_snapped_payload
    (project : Vector3 -> Vector3) nearby_snaps first rest plane camera
    presenter activatedHelpers this :
  dispatched
    (onPointerMove project
       (new_SnapPresentation nearby_snaps (first :: rest) plane camera
                             presenter activatedHelpers) this)
  = dispatched this
    ++ [Snapped
          match defined_names (first :: rest) with
          | [] => None
          | _ :: _ =>
              Some (project (position first),
                    sort (new_Set (defined_names (first :: rest))))
          end].
Proof.
  pose proof (info_of_presentation nearby_snaps first rest plane camera
                presenter activatedHelpers) as Hi.
  unfold onPointerMove. rewrite Hi, names_of_presentation.
  pose proof (sort_Permutation (new_Set (defined_names (first :: rest)))) as Hp.
  generalize dependent (defined_names (first :: rest)). intros names0 Hp.
  simpl. do 3 f_equal.
  destruct names0 as [| n ns].
  - reflexivity.
  - destruct (sort (new_Set (n :: ns))) as [| m ms] eqn:Hs; [| done].
    symmetry in Hp. apply Permutation_nil_r in Hp.
    assert (Hin : n ∈ new_Set (n :: ns)) by (apply elem_of_new_Set; left).
    rewrite Hp in Hin. by apply elem_of_nil in Hin.
Qed.

(** A presentation made for a gizmo has the indicator of the first
    intersection as its first helper; one made for the point picker has
    the helpers of the activated snaps that have one in front of it.
    Without any intersection both have no helpers at all, activated snaps
    or not. *)
Theorem factories_helpers nearby_snaps first rest plane camera presenter
    (activated : list (@Snap Object3D)) :
  helpers (makeForGizmo nearby_snaps (first :: rest) plane camera presenter)
  = snapIndicatorFor presenter first
    :: omap (fun i => helper (snap i)) (first :: rest)
  /\ helpers (makeForPointPicker nearby_snaps (first :: rest) plane camera
                                 presenter activated)
     = omap helper activated ++ [snapIndicatorFor presenter first]
       ++ omap (fun i => helper (snap i)) (first :: rest)
  /\ helpers (makeForGizmo nearby_snaps [] plane camera presenter) = []
  /\ helpers (makeForPointPicker nearby_snaps [] plane camera presenter
                                 activated) = [].
Proof.
  unfold makeForGizmo, makeForPointPicker.
  rewrite !helpers_of_presentation. done.
Qed.

End Presentation.

Lemma presentation_names_ignore_order_witness :
  names (@new_SnapPresentation nat nat nat nat nat [] 
           [ {| snap := {| helper := None; name := Some "b"%string |};
                position := 0%nat; orientation := 0%nat; cursorPosition := 0%nat;
                cursorOrientation := 0%nat |};
             {| snap := {| helper := None; name := Some "a"%string |};
                position := 1%nat; orientation := 0%nat; cursorPosition := 0%nat;
                cursorOrientation := 0%nat |} ]
           0%nat {| camera_position := 0%nat; camera_quaternion := 0%nat |}
           {| nearbyIndicatorFor := fun n => n; snapIndicatorFor := fun _ => 7%nat |}
           [])
  = names (@new_SnapPresentation nat nat nat nat nat [] 
           [ {| snap := {| helper := None; name := Some "a"%string |};
                position := 1%nat; orientation := 0%nat; cursorPosition := 0%nat;
                cursorOrientation := 0%nat |};
             {| snap := {| helper := Some 3%nat; name := Some "b"%string |};
                position := 0%nat; orientation := 0%nat; cursorPosition := 0%nat;
                cursorOrientation := 0%nat |};
             {| snap := {| helper := None; name := Some "a"%string |};
                position := 1%nat; orientation := 0%nat; cursorPosition := 0%nat;
                cursorOrientation := 0%nat |} ]
           0%nat {| camera_position := 0%nat; camera_quaternion := 0%nat |}
           {| nearbyIndicatorFor := fun n => n; snapIndicatorFor := fun _ => 7%nat |}
           []).
Proof.
  apply presentation_names_ignore_order.
  intros n. vm_compute defined_names.
  rewrite !elem_of_cons, !elem_of_nil. tauto.
Defined.

Lemma pointer_move_shows_cursor_iff_intersections_witness :
  children
    (onPointerMove (fun v : nat => v)
       (@new_SnapPresentation nat nat nat nat nat [7%nat]
          [ {| snap := {| helper := Some 3%nat; name := None |};
               position := 0%nat; orientation := 0%nat;
               cursorPosition := 0%nat; cursorOrientation := 0%nat |} ]
          0%nat {| camera_position := 0%nat; camera_quaternion := 0%nat |}
          {| nearbyIndicatorFor := fun n => n;
             snapIndicatorFor := fun _ => 4%nat |}
          [])
       {| cursor_visible := false; cursor_position := 0%nat;
          children := []; dispatched := [] |})
  = [7; 4; 3]%nat.
Proof.
  apply (proj1 (proj2 (proj2 (proj2 (proj2 (proj2
           (pointer_move_shows_cursor_iff_intersections
              (fun v : nat => v) [7%nat]
              {| snap := {| helper := Some 3%nat; name := None |};
                 position := 0%nat; orientation := 0%nat;
                 cursorPosition := 0%nat; cursorOrientation := 0%nat |}
              [] 0%nat
              {| camera_position := 0%nat; camera_quaternion := 0%nat |}
              {| nearbyIndicatorFor := fun n => n;
                 snapIndicatorFor := fun _ => 4%nat |}
              []
              {| cursor_visible := false; cursor_position := 0%nat;
                 children := []; dispatched := [] |}))))))).
  apply (bool_decide_unpack (NoDup [7; 4; 3]%nat)). vm_compute. exact I.
Defined.

(** The indicator of the first intersection is the helper of its snap too:
    the scene holds it once, behind the helper of the other snap. *)
Example pointer_move_moves_an_object_added_twice :
  children
    (onPointerMove (fun v : nat => v)
       (@new_SnapPresentation nat nat nat nat nat [7%nat]
          [ {| snap := {| helper := Some 3%nat; name := None |};
               position := 0%nat; orientation := 0%nat;
               cursorPosition := 0%nat; cursorOrientation := 0%nat |};
            {| snap := {| helper := Some 4%nat; name := None |};
               position := 0%nat; orientation := 0%nat;
               cursorPosition := 0%nat; cursorOrientation := 0%nat |};
            {| snap := {| helper := Some 3%nat; name := None |};
               position := 0%nat; orientation := 0%nat;
               cursorPosition := 0%nat; cursorOrientation := 0%nat |} ]
          0%nat {| camera_position := 0%nat; camera_quaternion := 0%nat |}
          {| nearbyIndicatorFor := fun n => n;
             snapIndicatorFor := fun _ => 3%nat |}
          [])
       {| cursor_visible := false; cursor_position := 0%nat;
          children := []; dispatched := [] |})
  = [7; 4; 3]%nat.
Proof. vm_compute. reflexivity. Qed.

End SnapPresenterFacts.

(** ** part_003: the commands the toolbar offers *)
Module ToolbarModelFacts.
Import ToolbarModel.

Local Open Scope nat_scope.

(** A size is 0, 1 or at least 2; edges and regions, control points and
    faces are only asked whether they are 0. *)
Ltac by_sizes sel :=
  destruct sel as [c s f p r e];
  destruct c as [| [| c]]; destruct s as [| [| s]]; destruct f as [| f];
  destruct p as [| p]; destruct r as [| r]; destruct e as [| e].

(** X20. [commands] only looks at whether a size is 0, 1 or more: beyond
    two selected items of a kind the toolbar no longer changes. *)
Theorem commands_depend_on_clipped_sizes (selection : Selection) :
  commands (clipped selection) = commands selection.
Proof.
  destruct selection as [c s f p r e].
  destruct c as [| [| c]]; destruct s as [| [| s]]; destruct f as [| [| f]];
    destruct p as [| [| p]]; destruct r as [| [| r]]; destruct e as [| [| e]];
    reflexivity.
Qed.

(** X21. The toolbar is empty exactly when no curve, solid, face, control
    point or region is selected; selected edges alone offer nothing. *)
Theorem commands_empty_iff (selection : Selection) :
  commands selection = []
  <-> curves selection = 0 /\ solids selection = 0 /\ faces selection = 0
      /\ controlPoints selection = 0 /\ regions selection = 0.
Proof.
  by_sizes selection; simpl;
    (split; [intros H; try discriminate H; repeat split; reflexivity
            | intros (? & ? & ? & ? & ?); try lia; reflexivity]).
Qed.

(** X22. Three commands can be offered more than once, and then the toolbar
    shows them more than once: ExtrudeCommand once for each of regions,
    faces and curves that is selected, OffsetCurveCommand once for each of
    faces and curves, FilletCurveCommand once for each of curves and
    control points.  Every other command is offered at most once. *)
Theorem commands_offered_how_often (selection : Selection) (cmd : Command) :
  offered ExtrudeCommand selection
  = bool_to_nat (0 <? regions selection) + bool_to_nat (0 <? faces selection)
    + bool_to_nat (0 <? curves selection)
  /\ offered OffsetCurveCommand selection
     = bool_to_nat (0 <? faces selection) + bool_to_nat (0 <? curves selection)
  /\ offered FilletCurveCommand selection
     = bool_to_nat (0 <? curves selection)
       + bool_to_nat (0 <? controlPoints selection)
  /\ (cmd <> ExtrudeCommand -> cmd <> OffsetCurveCommand ->
      cmd <> FilletCurveCommand -> offered cmd selection <= 1).
Proof.
  by_sizes selection; repeat split; try reflexivity;
    intros He Ho Hf; destruct cmd; try done; vm_compute; lia.
Qed.

Lemma commands_offered_how_often_witness :
  offered ExtrudeCommand
    {| curves := 1; solids := 0; faces := 2; controlPoints := 0;
       regions := 1; edges := 0 |} = 3
  /\ offered MoveCommand
       {| curves := 1; solids := 0; faces := 2; controlPoints := 0;
          regions := 1; edges := 0 |} <= 1.
Proof.
  pose proof (commands_offered_how_often
                {| curves := 1; solids := 0; faces := 2; controlPoints := 0;
                   regions := 1; edges := 0 |} MoveCommand)
    as (He & _ & _ & Hc).
  split; [exact He |]. apply Hc; discriminate.
Defined.

(** X23. The commands are all different exactly when regions and faces are
    not selected together, and curves are not selected together with
    regions, faces or control points. *)
Theorem commands_NoDup_iff (selection : Selection) :
  NoDup (commands selection)
  <-> ~ (0 < regions selection /\ 0 < faces selection)
      /\ ~ (0 < curves selection
            /\ (0 < regions selection \/ 0 < faces selection
                \/ 0 < controlPoints selection)).
Proof.
  rewrite <- (bool_decide_eq_true (NoDup (commands selection))).
  by_sizes selection; vm_compute (bool_decide _); simpl;
    (split; [intros H; try discriminate H; lia | intros H; try reflexivity; lia]).
Qed.

(** X24. DeleteCommand, when offered, comes first; the toolbar starts with
    another command only when nothing but regions (and edges) is selected,
    and then it is ExtrudeCommand alone. *)
Theorem commands_start_with_delete (selection : Selection) :
  commands selection = []
  \/ head (commands selection) = Some DeleteCommand
  \/ (commands selection = [ExtrudeCommand]
      /\ curves selection = 0 /\ solids selection = 0 /\ faces selection = 0
      /\ controlPoints selection = 0 /\ 0 < regions selection).
Proof.
  by_sizes selection; simpl;
    first [by left | by right; left | right; right; repeat split; lia].
Qed.

(** X25. The number of selected edges decides one thing only, whether
    SymmetryCommand is offered: it is offered exactly when a solid is
    selected and no face, edge or curve is, and the other commands are the
    same whatever the number of edges. *)
Theorem edges_only_decide_symmetry (selection : Selection) (n : nat) :
  (SymmetryCommand ∈ commands selection
   <-> 0 < solids selection /\ faces selection = 0 /\ edges selection = 0
       /\ curves selection = 0)
  /\ filter (fun c => c <> SymmetryCommand) (commands (with_edges n selection))
     = filter (fun c => c <> SymmetryCommand) (commands selection).
Proof.
  split.
  - rewrite <- (bool_decide_eq_true (SymmetryCommand ∈ commands selection)).
    by_sizes selection; vm_compute (bool_decide _); simpl;
      (split; [intros H; try discriminate H; repeat split; (lia || reflexivity)
              | intros (? & ? & ? & ?); try reflexivity; lia]).
  - destruct n as [| n]; by_sizes selection; reflexivity.
Qed.

End ToolbarModelFacts.

(** ** part_003: the multiplexer's set of controls and its winner *)
Module ViewportControlMultiplexerFacts.
Import ViewportControlMultiplexer.

Lemma filter_ext_elem {A} (P Q : A -> Prop) `{forall x, Decision (P x)}
    `{forall x, Decision (Q x)} (l : list A) :
  (forall x, x ∈ l -> (P x <-> Q x)) -> filter P l = filter Q l.
Proof.
  induction l as [| a l IH]; intros Hext; [done |].
  rewrite !filter_cons.
  assert (Ha : P a <-> Q a) by (apply Hext; left).
  rewrite IH by (intros x Hx; apply Hext; by right).
  destruct (decide (P a)), (decide (Q a)); tauto.
Qed.

Lemma Set_add_elem x y set : y ∈ Set_add x set <-> y = x \/ y ∈ set.
Proof.
  unfold Set_add. destruct (decide (x ∈ set)).
  - split; [by right | intros [-> | ?]; done].
  - rewrite elem_of_app, list_elem_of_singleton. tauto.
Qed.

Lemma Set_add_NoDup x set : NoDup set -> NoDup (Set_add x set).
Proof.
  intros Hset. unfold Set_add. destruct (decide (x ∈ set)); [done |].
  apply NoDup_app. split; [done |]. split; [| apply NoDup_singleton].
  intros y Hy ->%list_elem_of_singleton. done.
Qed.

(** Adding the members of a list one after the other keeps the set in
    place and appends the new members, each once. *)
Lemma fold_Set_add (l acc : list nat) :
  NoDup acc ->
  NoDup (fold_left (fun set c => Set_add c set) l acc)
  /\ acc `prefix_of` fold_left (fun set c => Set_add c set) l acc
  /\ forall c, c ∈ fold_left (fun set c => Set_add c set) l acc
               <-> c ∈ acc \/ c ∈ l.
Proof.
  revert acc. induction l as [| a l IH]; intros acc Hacc; simpl.
  - split; [done |]. split; [done |]. intros c. rewrite elem_of_nil. tauto.
  - destruct (IH (Set_add a acc) (Set_add_NoDup a acc Hacc))
      as (Hnd & Hpre & Hmem).
    split; [done |]. split.
    + etrans; [| exact Hpre]. unfold Set_add.
      destruct (decide (a ∈ acc)); [done | by apply prefix_app_r].
    + intros c. rewrite Hmem, Set_add_elem, elem_of_cons. tauto.
Qed.

(** On a list without duplicates the result is explicit. *)
Lemma fold_Set_add_NoDup (l acc : list nat) :
  NoDup l ->
  fold_left (fun set c => Set_add c set) l acc
  = acc ++ filter (fun y => y ∉ acc) l.
Proof.
  revert acc. induction l as [| a l IH]; intros acc Hl; simpl.
  - by rewrite app_nil_r.
  - apply NoDup_cons in Hl as [Ha Hl]. rewrite IH by done.
    rewrite filter_cons. unfold Set_add.
    destruct (decide (a ∈ acc)) as [Hin | Hnot].
    + by destruct (decide (a ∉ acc)).
    + destruct (decide (a ∉ acc)); [| done].
      rewrite <- app_assoc. simpl. do 2 f_equal.
      apply filter_ext_elem. intros x Hx.
      rewrite elem_of_app, list_elem_of_singleton.
      split; [tauto |]. intros Hxa [? | ->]; done.
Qed.

Section Multiplexer.
Context {W Intersections MouseEvent Position : Type}.
Context (control : nat -> @ViewportControl W Intersections MouseEvent Position).
Implicit Types (this : Multiplexer) (w : W) (i : Intersections).

(** X26. [unshift] makes a control the first of the set, in front of the
    others in the order they had; a control that was in the set already is
    moved to the front, not entered twice.  The winner stays. *)
Theorem unshift_moves_to_front (first : nat) this :
  NoDup (controls this) ->
  controls (unshift first this) = first :: Set_delete first (controls this)
  /\ NoDup (controls (unshift first this))
  /\ winner (unshift first this) = winner this.
Proof.
  intros Hnd. unfold unshift. simpl.
  assert (Hfirst : Set_add first [] = [first]) by done.
  rewrite Hfirst. split; [| split; [| done]].
  - rewrite fold_Set_add_NoDup by done. simpl. f_equal.
    unfold Set_delete. apply filter_ext_elem. intros x _.
    rewrite list_elem_of_singleton. done.
  - apply fold_Set_add. apply NoDup_singleton.
Qed.




Lemma call_winner (c : Call) this w :
  match fst (fst (call control c this w)) with
  | Some true => is_Some (winner (snd (fst (call control c this w))))
  | _ => winner (snd (fst (call control c this w))) = winner this
  end.
Proof.
  destruct c; simpl; try done.
  unfold mux_startClick.
  destruct (startClick_loop control (controls this) i w) as [[asked won] w1].
  destruct won; simpl; [by eexists | done].
Qed.

Lemma calls_winner (cs : list Call) this w :
  (is_Some (winner this) ->
   is_Some (winner (snd (fst (calls control cs this w)))))
  /\ (winner this = None ->
      (winner (snd (fst (calls control cs this w))) = None
       <-> Forall (fun b => b = false) (fst (fst (calls control cs this w))))).
Proof.
  revert this w. induction cs as [| c cs IH]; intros this w; simpl.
  - split; [done |]. intros Hn. split; [by constructor | done].
  - pose proof (call_winner c this w) as Hc.
    destruct (call control c this w) as [[r this1] w1]. simpl in Hc.
    specialize (IH this1 w1).
    destruct (calls control cs this1 w1) as [[rs this2] w2]. simpl in *.
    destruct IH as [IHsome IHnone].
    destruct r as [[|] |]; simpl.
    + split; [intros _; by apply IHsome |].
      intros _. split.
      * intros Hn. apply IHsome in Hc. rewrite Hn in Hc. by destruct Hc.
      * intros Hall. by apply Forall_cons in Hall as [? _].
    + rewrite Hc in *. split; [done |]. intros Hn.
      rewrite (IHnone Hn), Forall_cons. tauto.
    + rewrite Hc in *. split; [done |]. done.
Qed.

(** X29. The winner is never taken back.  On a new multiplexer the drag
    calls throw "invalid state" exactly as long as no [startClick] has
    returned true; from the first that did, no later call - not a
    [startClick] that returns false, not the removal of the winner - makes
    them throw again. *)
Theorem drag_throws_until_first_accepted_click (cs : list Call)
    (e : MouseEvent) (p : Position) w :
  (mux_startDrag control e p (snd (fst (calls control cs new_Multiplexer w)))
                 (snd (calls control cs new_Multiplexer w))
   = inl InvalidState
   <-> Forall (fun b => b = false)
              (fst (fst (calls control cs new_Multiplexer w))))
  /\ forall this more w0,
      is_Some (winner this) ->
      exists w1,
        mux_startDrag control e p (snd (fst (calls control more this w0)))
                      (snd (calls control more this w0)) = inr w1.
Proof.
  split.
  - destruct (calls_winner cs new_Multiplexer w) as [_ Hnone].
    rewrite <- (Hnone eq_refl). unfold mux_startDrag.
    destruct (winner (snd (fst (calls control cs new_Multiplexer w))));
      split; done.
  - intros this more w0 Hsome.
    destruct (calls_winner more this w0) as [Hkeep _].
    destruct (Hkeep Hsome) as [c Hc]. unfold mux_startDrag. rewrite Hc.
    by eexists.
Qed.

(** X30. Deleting the control that won the last click takes it out of the
    set but leaves it the winner: the next drag still goes to it. *)
Theorem deleted_winner_still_gets_the_drag (c : nat) this
    (e : MouseEvent) (p : Position) w :
  winner this = Some c ->
  (c ∉ controls (delete c this))
  /\ winner (delete c this) = Some c
  /\ mux_startDrag control e p (delete c this) w
     = inr (startDrag (control c) e p w).
Proof.
  intros Hw. unfold mux_startDrag, delete, Set_delete. simpl. rewrite Hw.
  split; [| done]. intros Hin. apply list_elem_of_filter in Hin as [Hne _]. done.
Qed.

End Multiplexer.

Lemma unshift_moves_to_front_witness :
  controls (unshift 3%nat {| controls := [1; 2; 3; 4]%nat; winner := None |})
  = [3; 1; 2; 4]%nat.
Proof.
  apply (unshift_moves_to_front 3%nat
           {| controls := [1; 2; 3; 4]%nat; winner := None |}).
  apply (bool_decide_unpack (NoDup [1; 2; 3; 4]%nat)). vm_compute. exact I.
Defined.



Lemma drag_throws_until_first_accepted_click_witness :
  mux_startDrag logging_control tt tt
    (snd (fst (calls logging_control
                 [CallPush [0; 1]%nat; CallStartClick tt; CallStartHover tt]
                 new_Multiplexer [])))
    (snd (calls logging_control
            [CallPush [0; 1]%nat; CallStartClick tt; CallStartHover tt]
            new_Multiplexer []))
  = inl InvalidState.
Proof.
  apply (proj1 (drag_throws_until_first_accepted_click logging_control
                  [CallPush [0; 1]%nat; CallStartClick tt; CallStartHover tt]
                  tt tt [])).
  simpl. repeat constructor.
Defined.

Lemma deleted_winner_still_gets_the_drag_witness :
  (2%nat ∉ controls (delete 2%nat {| controls := [1; 2]%nat; winner := Some 2%nat |}))
  /\ winner (delete 2%nat {| controls := [1; 2]%nat; winner := Some 2%nat |})
     = Some 2%nat
  /\ mux_startDrag logging_control tt tt
       (delete 2%nat {| controls := [1; 2]%nat; winner := Some 2%nat |}) []
     = inr [2%nat].
Proof.
  apply (deleted_winner_still_gets_the_drag logging_control 2%nat
           {| controls := [1; 2]%nat; winner := Some 2%nat |} tt tt []).
  reflexivity.
Defined.

End ViewportControlMultiplexerFacts.
